(** * Voice agent: conversation webhooks, reply strategy and outbound dialer

    A shallow embedding of [voice-agent/src/server.js], [aiAgent.js] and
    [dialer.js].  JavaScript strings are sequences of UTF-16 code units,
    the session registry [callHistories] is a finite map, and the two
    external services (chat completion, call placement) are oracles whose
    every invocation is recorded in the state that the handlers thread. *)

From Stdlib Require Import String Ascii QArith Qround.
From Stdlib Require Import DecimalN.
From stdpp Require Import gmap list.

Local Open Scope N_scope.

(** ** JavaScript strings *)

Module JS.

(** A string value is its list of UTF-16 code units. *)
Abbreviation jsstring := (list N).

(** Literals are written as in the source files (UTF-8 text) and decoded
    into code units. *)
Fixpoint utf16_of_bytes (bs : list N) : jsstring :=
  match bs with
  | [] => []
  | b :: r1 =>
      if N.ltb b 128 then b :: utf16_of_bytes r1
      else
        match r1 with
        | [] => []
        | c :: r2 =>
            if N.ltb b 224 then ((b - 192) * 64 + (c - 128)) :: utf16_of_bytes r2
            else
              match r2 with
              | [] => []
              | d :: r3 =>
                  if N.ltb b 240
                  then ((b - 224) * 4096 + (c - 128) * 64 + (d - 128)) :: utf16_of_bytes r3
                  else
                    match r3 with
                    | [] => []
                    | e :: r4 =>
                        let cp := (b - 240) * 262144 + (c - 128) * 4096
                                  + (d - 128) * 64 + (e - 128) in
                        let v := cp - 65536 in
                        (55296 + v / 1024) :: (56320 + v mod 1024) :: utf16_of_bytes r4
                    end
              end
        end
  end.

Definition lit (s : string) : jsstring :=
  utf16_of_bytes (List.map N_of_ascii (list_ascii_of_string s)).

(** [x || d] on strings: the empty string is the only falsy string. *)
Definition truthy (x : jsstring) : bool :=
  match x with [] => false | _ :: _ => true end.

Definition strOr (x d : jsstring) : jsstring :=
  if truthy x then x else d.

(** [a || b] where [a] may be [undefined]. *)
Definition optOr (a : option jsstring) (d : jsstring) : jsstring :=
  match a with
  | Some x => strOr x d
  | None => d
  end.

(** [String.prototype.includes]. *)
Fixpoint startsWith (p s : jsstring) : bool :=
  match p, s with
  | [], _ => true
  | _ :: _, [] => false
  | a :: p', b :: s' => N.eqb a b && startsWith p' s'
  end.

Fixpoint includes (s p : jsstring) : bool :=
  startsWith p s ||
  match s with
  | [] => false
  | _ :: s' => includes s' p
  end.

(** [String.prototype.toLowerCase], for the code units of Basic Latin,
    Latin-1 Supplement and the Cyrillic block; every other code unit is
    left as it is. *)
Definition between (lo hi u : N) : bool := N.leb lo u && N.leb u hi.

Definition lowerUnit (u : N) : N :=
  if between 65 90 u then u + 32
  else if between 192 222 u && negb (N.eqb u 215) then u + 32
  else if between 1040 1071 u then u + 32
  else if between 1024 1039 u then u + 80
  else u.

Definition toLowerCase (s : jsstring) : jsstring := List.map lowerUnit s.

(** [String.prototype.trim]: white space and line terminators of
    ECMAScript. *)
Definition isWhite (u : N) : bool :=
  between 9 13 u || N.eqb u 32 || N.eqb u 160 || N.eqb u 5760
  || between 8192 8202 u || N.eqb u 8232 || N.eqb u 8233 || N.eqb u 8239
  || N.eqb u 8287 || N.eqb u 12288 || N.eqb u 65279.

Fixpoint trimStart (s : jsstring) : jsstring :=
  match s with
  | [] => []
  | u :: s' => if isWhite u then trimStart s' else s
  end.

Definition trim (s : jsstring) : jsstring :=
  rev (trimStart (rev (trimStart s))).

(** Decimal rendering of a non-negative integer, as in a template
    literal. *)
Fixpoint digits (d : Decimal.uint) : jsstring :=
  match d with
  | Decimal.Nil => []
  | Decimal.D0 r => 48 :: digits r
  | Decimal.D1 r => 49 :: digits r
  | Decimal.D2 r => 50 :: digits r
  | Decimal.D3 r => 51 :: digits r
  | Decimal.D4 r => 52 :: digits r
  | Decimal.D5 r => 53 :: digits r
  | Decimal.D6 r => 54 :: digits r
  | Decimal.D7 r => 55 :: digits r
  | Decimal.D8 r => 56 :: digits r
  | Decimal.D9 r => 57 :: digits r
  end.

Definition decimal (n : N) : jsstring := digits (N.to_uint n).

(** A thrown value, and what [err?.message || err] prints of it. *)
Record JsError := { err_message : option jsstring; err_text : jsstring }.

Definition reasonOf (err : JsError) : jsstring :=
  optOr (err_message err) (err_text err).

(** Outcome of an awaited computation, and the monad of a handler: state
    [S] threaded through, a rejection stopping the sequence.  [Died]
    stands for a promise that is never settled because the process has
    ended on an uncaught error: nothing runs after it and no handler
    catches it. *)
Inductive Exc (A : Type) : Type :=
| Ok (a : A)
| Raised (err : JsError)
| Died.
Arguments Ok {A} a.
Arguments Raised {A} err.
Arguments Died {A}.

Definition M (S A : Type) : Type := S -> Exc A * S.

Definition ret {S A} (a : A) : M S A := fun s => (Ok a, s).

Definition bind {S A B} (m : M S A) (k : A -> M S B) : M S B :=
  fun s =>
    match m s with
    | (Ok a, s') => k a s'
    | (Raised e, s') => (Raised e, s')
    | (Died, s') => (Died, s')
    end.

Definition throw {S A} (e : JsError) : M S A := fun s => (Raised e, s).

Definition tryCatch {S A} (m : M S A) (h : JsError -> M S A) : M S A :=
  fun s =>
    match m s with
    | (Ok a, s') => (Ok a, s')
    | (Raised e, s') => h e s'
    | (Died, s') => (Died, s')
    end.

Definition modify {S} (f : S -> S) : M S unit := fun s => (Ok tt, f s).

Definition gets {S A} (f : S -> A) : M S A := fun s => (Ok (f s), s).

End JS.

Export JS.

#[global] Instance M_ret {S} : MRet (M S) := fun A => @ret S A.
#[global] Instance M_bind {S} : MBind (M S) := fun A B k m => @bind S A B m k.

(** ** The reply strategy and the webhook handlers *)

Module Agent.

Inductive Role := system | user | assistant.

Record Turn := { role : Role; content : jsstring }.

(** The part of a chat completion that [getAgentReply] reads through
    [completion.choices?.[0]?.message?.content]. *)
Record ChatMessage := { message_content : option jsstring }.
Record Choice := { choice_message : option ChatMessage }.
Record Completion := { choices : option (list Choice) }.

Inductive Outcome :=
| Resolves (completion : Completion)
| Rejects (err : JsError).

(** [openaiClient.chat.completions.create]: what the service answers to
    the request that follows [k] earlier ones and carries [messages]
    (model, temperature and token ceiling are constants of the call). *)
Definition Client := nat -> list Turn -> Outcome.

(** State of the server process: the session registry, the requests
    sent to the completion service so far, and the console. *)
Record World := {
  callHistories : gmap jsstring (list Turn);
  requests : list (list Turn);
  console : list (list jsstring)
}.

Definition setHistories (f : gmap jsstring (list Turn) -> gmap jsstring (list Turn))
    (w : World) : World :=
  {| callHistories := f (callHistories w);
     requests := requests w;
     console := console w |}.

Definition logLine (line : list jsstring) (w : World) : World :=
  {| callHistories := callHistories w;
     requests := requests w;
     console := console w ++ [line] |}.

Definition create (client : Client) (messages : list Turn) : M World Completion :=
  fun w =>
    let w' := {| callHistories := callHistories w;
                 requests := requests w ++ [messages];
                 console := console w |} in
    match client (length (requests w)) messages with
    | Resolves completion => (Ok completion, w')
    | Rejects err => (Raised err, w')
    end.

Definition SYSTEM_PROMPT : jsstring :=
  lit "Ты — вежливый русскоязычный SDR-агент по холодным звонкам.
Твоя цель — за 2-4 реплики выяснить потребности и предложить короткий созвон с менеджером.
Говори короткими фразами (1-2 предложения), без жаргона. Если клиент явно не заинтересован — поблагодари и вежливо завершай разговор.".

Definition buildMessagesFromHistory (history : list Turn) : list Turn :=
  {| role := system; content := SYSTEM_PROMPT |}
  :: List.map (fun turn => {| role := role turn; content := content turn |}) history.

Record Reply := { text : jsstring; shouldHangup : bool }.

Definition ruleBasedFallback (userText : jsstring) : Reply :=
  let text := toLowerCase (strOr userText []) in
  if includes text (lit "не интересно") || includes text (lit "неинтересно")
     || includes text (lit "не надо")
  then {| text := lit "Понимаю, спасибо за время. Хорошего дня!"; shouldHangup := true |}
  else if includes text (lit "почта") || includes text (lit "email")
          || includes text (lit "письмо")
  then {| text := lit "Отправлю краткое письмо с описанием. Подскажите, пожалуйста, удобный e-mail?";
          shouldHangup := false |}
  else {| text := lit "Скажите, пожалуйста, актуальна ли для вас оптимизация расходов и автоматизация в ближайший месяц?";
          shouldHangup := false |}.

(** [completion.choices?.[0]?.message?.content?.trim()] *)
Definition firstContent (completion : Completion) : option jsstring :=
  match choices completion with
  | Some (choice :: _) =>
      match choice_message choice with
      | Some m =>
          match message_content m with
          | Some c => Some (trim c)
          | None => None
          end
      | None => None
      end
  | _ => None
  end.

Definition getAgentReply (openaiClient : option Client)
    (callHistory : list Turn) (latestUserText : jsstring) : M World Reply :=
  match openaiClient with
  | None => mret (ruleBasedFallback latestUserText)
  | Some client =>
      let messages :=
        buildMessagesFromHistory callHistory
        ++ [{| role := user; content := strOr latestUserText [] |}] in
      tryCatch
        (completion ← create client messages;
         let aiText := optOr (firstContent completion) [] in
         let lc := toLowerCase aiText in
         let shouldHangup :=
           includes lc (lit "хорошего дня") || includes lc (lit "до свидания")
           || includes lc (lit "до встречи") || includes lc (lit "завершаю") in
         mret {| text := strOr aiText
                   (lit "Спасибо! Подскажите, пожалуйста, удобно ли будет на короткий звонок завтра?");
                 shouldHangup := shouldHangup |})
        (fun err =>
           modify (logLine [lit "OpenAI error"; reasonOf err]);;
           mret (ruleBasedFallback latestUserText))
  end.

(** *** server.js *)

(** The fields of [req.body] that the handlers read. *)
Record Body := {
  CallSid : option jsstring;
  SpeechResult : option jsstring;
  speechResult : option jsstring;
  CallStatus : option jsstring
}.

(** The argument of [twimlResponse]; its rendering to markup is not
    modelled. *)
Record Directive := { message : jsstring; gatherNext : bool; hangup : bool }.

Definition callSidOf (body : Body) (now : N) : jsstring :=
  optOr (CallSid body) (lit "local-" ++ decimal now).

(** [req.body.SpeechResult || req.body.speechResult || ""] *)
Definition speechOf (body : Body) : jsstring :=
  optOr (SpeechResult body) (optOr (speechResult body) []).

Definition seed : Turn := {| role := system; content := lit "Начало звонка" |}.

Definition intro : jsstring :=
  lit "Здравствуйте! Меня зовут Анна, я звоню по поводу краткого улучшения ваших бизнес-процессов. Удобно ли поговорить минуту?".

(** [app.post("/voice")]; [now] is the value of [Date.now()]. *)
Definition voice (body : Body) (now : N) : M World Directive :=
  let callSid := callSidOf body now in
  modify (setHistories (insert callSid [seed]));;
  mret {| message := intro; gatherNext := true; hangup := false |}.

(** [app.post("/gather")].  [history.push] acts on the array held by the
    registry when there is one, so the user turn is already stored while
    the reply is awaited; a fresh array enters the registry only with
    the final [set]. *)
Definition gather (openaiClient : option Client) (body : Body) (now : N)
    : M World Directive :=
  let callSid := callSidOf body now in
  let speech := speechOf body in
  stored ← gets (fun w => callHistories w !! callSid);
  let history := default [] stored ++ [{| role := user; content := speech |}] in
  modify (fun w => match stored with
                   | Some _ => setHistories (insert callSid history) w
                   | None => w
                   end);;
  reply ← getAgentReply openaiClient history speech;
  let history' := history ++ [{| role := assistant; content := text reply |}] in
  modify (setHistories (insert callSid history'));;
  mret {| message := text reply;
          gatherNext := negb (shouldHangup reply);
          hangup := shouldHangup reply |}.

(** [app.post("/status")]: logs and answers 204. *)
Definition status (body : Body) : M World N :=
  modify (logLine [lit "Status callback:";
                   default (lit "undefined") (CallSid body);
                   default (lit "undefined") (CallStatus body)]);;
  mret 204.

Definition emptyWorld : World :=
  {| callHistories := ∅; requests := []; console := [] |}.

(** A run of [/gather] deliveries handled one after the other, each with
    its request body and the clock value it sees. *)
Fixpoint gatherAll (openaiClient : option Client) (reqs : list (Body * N))
    : M World (list Directive) :=
  match reqs with
  | [] => mret []
  | (body, now) :: rest =>
      d ← gather openaiClient body now;
      ds ← gatherAll openaiClient rest;
      mret (d :: ds)
  end.

(** The turns that a run of deliveries and the directives answering them
    stand for: what was heard, then what was said. *)
Fixpoint transcript (reqs : list (Body * N)) (ds : list Directive) : list Turn :=
  match reqs, ds with
  | (body, _) :: reqs', d :: ds' =>
      {| role := user; content := speechOf body |}
      :: {| role := assistant; content := message d |}
      :: transcript reqs' ds'
  | _, _ => []
  end.

(** Names for values that the proofs below refer to: the reply of the
    decline rule, the reply that stands in for an empty completion, and
    the messages of the request that [getAgentReply] sends. *)
Definition closing : Reply :=
  {| text := lit "Понимаю, спасибо за время. Хорошего дня!"; shouldHangup := true |}.

Definition followUp : Reply :=
  {| text := lit "Спасибо! Подскажите, пожалуйста, удобно ли будет на короткий звонок завтра?";
     shouldHangup := false |}.

Definition userTurn (speech : jsstring) : Turn := {| role := user; content := speech |}.

Definition assistantTurn (said : jsstring) : Turn :=
  {| role := assistant; content := said |}.

(** The body of a delivery for call [sid] that carries [speech]. *)
Definition delivery (sid speech : jsstring) : Body :=
  {| CallSid := Some sid; SpeechResult := Some speech;
     speechResult := None; CallStatus := None |}.

Definition messagesOf (callHistory : list Turn) (latestUserText : jsstring) : list Turn :=
  buildMessagesFromHistory callHistory
  ++ [{| role := user; content := strOr latestUserText [] |}].

End Agent.

(** ** JavaScript numbers *)

Module Num64.

Local Open Scope Z_scope.

(** A number value: not-a-number, an infinity, or a finite binary64
    value given by the rational it stands for (zero without its sign).
    Every binary64 value is one of these; the operations below round
    their exact results to binary64 as IEEE 754 does, to the nearest
    value with ties to the even significand. *)
Inductive number :=
| NaN
| Infinity (negative : bool)
| Finite (q : Q).

(** 2 to the power [z], as a rational. *)
Definition pow2 (z : Z) : Q :=
  if (0 <=? z)%Z then inject_Z (2 ^ z) else / inject_Z (2 ^ (- z)).

(** The exponent [e] with [2^e <= a < 2^(e+1)], for a positive [a]. *)
Definition binade (a : Q) : Z :=
  if Qle_bool 1 a then Z.log2 (Qfloor a) else - Z.log2_up (Qceiling (/ a)).

(** The exponent of the unit in the last place of the binary64 values
    around [a]: 53 significant bits, and no exponent below that of the
    subnormal values. *)
Definition ulpExp (a : Q) : Z := Z.max (binade a - 52) (-1074).

(** The nearest integer, a tie going to the even one. *)
Definition roundHalfEven (x : Q) : Z :=
  let f := Qfloor x in
  match Qcompare (x - inject_Z f) (1 # 2) with
  | Lt => f
  | Gt => f + 1
  | Eq => if Z.even f then f else f + 1
  end.

(** The nearest multiple of the unit in the last place, for a positive
    [a]. *)
Definition nearest (a : Q) : Q :=
  (inject_Z (roundHalfEven (a / pow2 (ulpExp a))) * pow2 (ulpExp a))%Q.

(** Rounding of an exact result to binary64; what reaches [2^1024]
    overflows to an infinity. *)
Definition round64 (q : Q) : number :=
  match Qcompare q 0 with
  | Eq => Finite 0
  | Gt => let r := nearest q in
          if Qle_bool (pow2 1024) r then Infinity false else Finite r
  | Lt => let r := nearest (- q) in
          if Qle_bool (pow2 1024) r then Infinity true else Finite (- r)
  end.

(** [a <= b] on numbers; false when either is [NaN]. *)
Definition numLeb (a b : number) : bool :=
  match a, b with
  | NaN, _ | _, NaN => false
  | Infinity true, _ => true
  | _, Infinity false => true
  | Infinity false, _ => false
  | _, Infinity true => false
  | Finite x, Finite y => Qle_bool x y
  end.

(** [Math.max] on two numbers. *)
Definition mathMax (a b : number) : number :=
  match a, b with
  | NaN, _ | _, NaN => NaN
  | _, _ => if numLeb a b then b else a
  end.

(** [Math.floor]. *)
Definition mathFloor (x : number) : number :=
  match x with
  | Finite q => Finite (inject_Z (Qfloor q))
  | _ => x
  end.

(** [x / y]. *)
Definition divide (x y : number) : number :=
  match x, y with
  | NaN, _ | _, NaN => NaN
  | Infinity _, Infinity _ => NaN
  | Infinity s, Finite q => Infinity (xorb s (if Qlt_le_dec q 0 then true else false))
  | Finite _, Infinity _ => Finite 0
  | Finite p, Finite q =>
      match Qcompare q 0 with
      | Eq => match Qcompare p 0 with
              | Eq => NaN
              | Gt => Infinity false
              | Lt => Infinity true
              end
      | _ => round64 (p / q)
      end
  end.

(** The divisor that [Math.max(1, rate)] yields for a finite rate; a
    name that the proofs use. *)
Definition atLeastOne (q : Q) : Q := if Qle_bool 1 q then q else 1.

End Num64.

(** ** The outbound dialer (dialer.js) *)

Module Dialer.
Import Num64.

(** A record of the contact list, as [csv-parse] delivers it with
    [columns: true]: the value of each column by its header. *)
Abbreviation Row := (gmap jsstring jsstring).

(** How reading the contact file can fail: the parser emits [error], on
    which [readContacts] has its handler, or the file stream does, on
    which nothing listens. *)
Inductive StreamFailure :=
| ParserFailed (err : JsError)
| FileUnreadable (err : JsError).

(** What reading and parsing the file yields: the rows delivered as
    [data] events, then [end] or a failure. *)
Record CsvStream := { rows : list Row; failure : option StreamFailure }.

(** Command-line options.  [rate] is the number that yargs makes of the
    option: [NaN] when the text given is no number. *)
Record Argv := {
  from : jsstring;
  csv : jsstring;
  url : jsstring;
  rate : number;
  status : jsstring
}.

Record Params := {
  to : jsstring;
  params_from : jsstring;
  params_url : jsstring;
  machineDetection : jsstring;
  statusCallback : option jsstring;
  statusCallbackEvent : option (list jsstring);
  statusCallbackMethod : option jsstring
}.

Inductive Placement :=
| Accepted (sid : jsstring)
| Refused (err : JsError).

(** [client.calls.create]: the answer of the telephony service to the
    request that follows [k] earlier ones. *)
Definition Twilio := nat -> Params -> Placement.

(** What the process does that can be observed from outside, in order. *)
Inductive Event :=
| Request (params : Params)
| LogCreated (index : N) (to sid : jsstring)
| LogError (index : N) (to reason : jsstring)
| Log (line : jsstring)
| ErrorLine (line : jsstring)
| Sleep (ms : number)
| Exit (code : Z)
| Uncaught (err : JsError).

Definition emit (e : Event) : M (list Event) unit := modify (fun tr => tr ++ [e]).

(** An error that nothing catches: it is reported and the process ends. *)
Definition die {A} (err : JsError) : M (list Event) A :=
  fun tr => (Died, tr ++ [Uncaught err]).

Definition isRequest (e : Event) : bool :=
  match e with Request _ => true | _ => false end.

Definition isSleep (e : Event) : bool :=
  match e with Sleep _ => true | _ => false end.

Definition isLogError (e : Event) : bool :=
  match e with LogError _ _ _ => true | _ => false end.

(** The requests sent to the telephony service, oldest first. *)
Definition attempts (tr : list Event) : list Params :=
  omap (fun e => match e with Request p => Some p | _ => None end) tr.

(** The per-contact outcome lines. *)
Definition outcomes (tr : list Event) : list Event :=
  List.filter (fun e => match e with
                        | LogCreated _ _ _ | LogError _ _ _ => true
                        | _ => false
                        end) tr.

Definition createCall (client : Twilio) (params : Params) : M (list Event) jsstring :=
  fun tr =>
    match client (length (attempts tr)) params with
    | Accepted sid => (Ok sid, tr ++ [Request params])
    | Refused err => (Raised err, tr ++ [Request params])
    end.

Definition phoneOf (row : Row) : option jsstring := row !! lit "phone".

(** [if (row.phone)] *)
Definition hasPhone (row : Row) : bool :=
  match phoneOf row with
  | Some p => truthy p
  | None => false
  end.

Definition readContacts (parseCsv : jsstring -> CsvStream) (csvPath : jsstring)
    : M (list Event) (list Row) :=
  let stream := parseCsv csvPath in
  let records := List.filter hasPhone (rows stream) in
  match failure stream with
  | Some (ParserFailed err) => throw err
  | Some (FileUnreadable err) => die err
  | None => mret records
  end.

(** [Math.max(5000, Math.floor(60000 / Math.max(1, argv.rate)))], the
    value handed to [setTimeout]. *)
Definition intervalMs (rate : number) : number :=
  mathMax (Finite 5000) (mathFloor (divide (Finite 60000) (mathMax (Finite 1) rate))).

Definition paramsFor (argv : Argv) (to : jsstring) : Params :=
  if truthy (status argv)
  then {| to := to; params_from := from argv; params_url := url argv;
          machineDetection := lit "Enable";
          statusCallback := Some (status argv);
          statusCallbackEvent :=
            Some [lit "initiated"; lit "ringing"; lit "answered"; lit "completed"];
          statusCallbackMethod := Some (lit "POST") |}
  else {| to := to; params_from := from argv; params_url := url argv;
          machineDetection := lit "Enable";
          statusCallback := None;
          statusCallbackEvent := None;
          statusCallbackMethod := None |}.

Definition typeError : JsError :=
  {| err_message := Some (lit "Cannot read properties of undefined (reading 'trim')");
     err_text := lit "TypeError: Cannot read properties of undefined (reading 'trim')" |}.

(** The body of the [for ... of] loop of [dialAll], [index] being the
    counter before it is incremented. *)
Fixpoint dialLoop (argv : Argv) (client : Twilio) (interval : number) (index : N)
    (contacts : list Row) : M (list Event) unit :=
  match contacts with
  | [] => mret tt
  | contact :: rest =>
      let index := index + 1 in
      phone ← match phoneOf contact with
              | Some p => mret p
              | None => throw typeError
              end;
      let to := trim phone in
      let params := paramsFor argv to in
      tryCatch
        (sid ← createCall client params; emit (LogCreated index to sid))
        (fun err => emit (LogError index to (reasonOf err)));;
      emit (Sleep interval);;
      dialLoop argv client interval index rest
  end.

Definition dialAll (argv : Argv) (client : Twilio) (contacts : list Row)
    : M (list Event) unit :=
  dialLoop argv client (intervalMs (rate argv)) 0 contacts.

Definition main (argv : Argv) (client : Twilio) (parseCsv : jsstring -> CsvStream)
    : M (list Event) unit :=
  contacts ← readContacts parseCsv (csv argv);
  if Nat.eqb (length contacts) 0
  then emit (ErrorLine (lit "В CSV нет записей с полем 'phone'"));;
       emit (Exit 1)
  else emit (Log (lit "Найдено контактов: " ++ decimal (N.of_nat (length contacts))
                  ++ lit ". Запускаю обзвон..."));;
       dialAll argv client contacts;;
       emit (Log (lit "Готово")).

(** The module as a whole: the credentials check, the construction of
    the client by [twilio(accountSid, authToken)], which may throw and
    is inside no [try], then [main().catch(...)]. *)
Definition missing (v : option jsstring) : bool := negb (truthy (default [] v)).

Inductive Constructed :=
| Built (client : Twilio)
| Thrown (err : JsError).

Definition program (accountSid authToken : option jsstring) (argv : Argv)
    (twilio : jsstring -> jsstring -> Constructed)
    (parseCsv : jsstring -> CsvStream) : M (list Event) unit :=
  if missing accountSid || missing authToken
  then emit (ErrorLine (lit "Требуются TWILIO_ACCOUNT_SID и TWILIO_AUTH_TOKEN в .env"));;
       emit (Exit 1)
  else match twilio (default [] accountSid) (default [] authToken) with
       | Thrown err => die err
       | Built client =>
           tryCatch (main argv client parseCsv)
             (fun e => emit (ErrorLine (err_text e));; emit (Exit 1))
       end.

(** Names that the proofs below use for one contact: the destination
    dialled, the request sent, and the line printed once the service has
    answered the request that follows [k] earlier ones. *)
Definition toOf (contact : Row) : jsstring := trim (default [] (phoneOf contact)).

Definition requestFor (argv : Argv) (contact : Row) : Params :=
  paramsFor argv (toOf contact).

Definition outcomeFor (argv : Argv) (client : Twilio) (k : nat) (index : N)
    (contact : Row) : Event :=
  match client k (requestFor argv contact) with
  | Accepted sid => LogCreated index (toOf contact) sid
  | Refused err => LogError index (toOf contact) (reasonOf err)
  end.

(** A row with a [phone] column only, and one without it. *)
Definition contactOf (phone : jsstring) : Row := {[ lit "phone" := phone ]}.

Definition unnamed (name : jsstring) : Row := {[ lit "name" := name ]}.

(** Options of a run at the default rate without status callback, a
    service that refuses its second request only, and a contact file of
    three rows. *)
Definition argvDefault : Argv :=
  {| from := lit "+10000000000"; csv := lit "contacts.csv";
     url := lit "https://example.org/voice"; rate := Finite 12; status := [] |}.

Definition refusesSecond : Twilio :=
  fun k _ =>
    if Nat.eqb k 1
    then Refused {| err_message := Some (lit "busy"); err_text := lit "Error: busy" |}
    else Accepted (lit "CA" ++ decimal (N.of_nat k)).

Definition threeContacts : list Row :=
  [contactOf (lit "+79000000001"); contactOf (lit " +79000000002 ");
   contactOf (lit "+79000000003")].

End Dialer.

(** ** Rendering of the directives and the HTTP surface (server.js) *)

Module Twiml.
Import Agent.

(** The double quote, which the literals of the source escape. *)
Definition dq : jsstring := [34].

(** [s.replace(/c/g, r)] for a pattern that is the single code unit
    [c]: every occurrence is replaced, left to right. *)
Definition replaceAll (c : N) (r s : jsstring) : jsstring :=
  flat_map (fun u => if N.eqb u c then r else [u]) s.

Definition escapeXml (unsafe : jsstring) : jsstring :=
  replaceAll 39 (lit "&#039;")
    (replaceAll 34 (lit "&quot;")
       (replaceAll 62 (lit "&gt;")
          (replaceAll 60 (lit "&lt;")
             (replaceAll 38 (lit "&amp;") unsafe)))).

Definition sayOpen : jsstring :=
  lit "<Say language=" ++ dq ++ lit "ru-RU" ++ dq ++ lit " voice=" ++ dq
  ++ lit "Polly-Tatyana" ++ dq ++ lit ">".

Definition gatherElement : jsstring :=
  lit "<Gather input=" ++ dq ++ lit "speech" ++ dq ++ lit " language=" ++ dq
  ++ lit "ru-RU" ++ dq ++ lit " speechTimeout=" ++ dq ++ lit "auto" ++ dq
  ++ lit " action=" ++ dq ++ lit "/gather" ++ dq ++ lit " method=" ++ dq
  ++ lit "POST" ++ dq ++ lit "></Gather>".

(** [twimlResponse({ message, gatherNext, hangup })], the three fields
    given as both handlers give them. *)
Definition twimlResponse (d : Directive) : jsstring :=
  let xml := lit "<?xml version=" ++ dq ++ lit "1.0" ++ dq ++ lit " encoding=" ++ dq
             ++ lit "UTF-8" ++ dq ++ lit "?>" in
  let xml := xml ++ lit "<Response>" in
  let xml := if truthy (message d)
             then xml ++ (sayOpen ++ escapeXml (message d) ++ lit "</Say>")
             else xml in
  let xml := if hangup d then xml ++ lit "<Hangup/>"
             else if gatherNext d then xml ++ gatherElement
             else xml in
  xml ++ lit "</Response>".

(** What a handler sends back: [res.set("Content-Type", ...)] and
    [res.send(xml)]. *)
Record HttpResponse := { contentType : jsstring; payload : jsstring }.

Definition postVoice (body : Body) (now : N) : M World HttpResponse :=
  d ← voice body now;
  mret {| contentType := lit "text/xml"; payload := twimlResponse d |}.

Definition postGather (openaiClient : option Client) (body : Body) (now : N)
    : M World HttpResponse :=
  d ← gather openaiClient body now;
  mret {| contentType := lit "text/xml"; payload := twimlResponse d |}.

(** The escape of one code unit, to which the proofs compare the five
    passes of [escapeXml]. *)
Definition escapeUnit (u : N) : jsstring :=
  if N.eqb u 38 then lit "&amp;"
  else if N.eqb u 60 then lit "&lt;"
  else if N.eqb u 62 then lit "&gt;"
  else if N.eqb u 34 then lit "&quot;"
  else if N.eqb u 39 then lit "&#039;"
  else [u].

(** The code units that open or close markup or an attribute value. *)
Definition isMarkup (u : N) : bool :=
  N.eqb u 60 || N.eqb u 62 || N.eqb u 34 || N.eqb u 39.

(** The document up to the spoken text, and the verb that follows the
    spoken part. *)
Definition sayHead : jsstring :=
  (lit "<?xml version=" ++ dq ++ lit "1.0" ++ dq ++ lit " encoding=" ++ dq
   ++ lit "UTF-8" ++ dq ++ lit "?>") ++ lit "<Response>" ++ sayOpen.

Definition verbOf (d : Directive) : jsstring :=
  if hangup d then lit "<Hangup/>"
  else if gatherNext d then gatherElement
  else [].

(** [clash p t]: [p] and [t] differ at a position that both have, so
    that [p] is no prefix of [t] however [t] is continued; [clashes p x]:
    this holds from every position of [x]. *)
Fixpoint clash (p t : jsstring) : bool :=
  match p, t with
  | a :: p', b :: t' => negb (N.eqb a b) || clash p' t'
  | _, _ => false
  end.

Fixpoint clashes (p x : jsstring) : bool :=
  match x with
  | [] => true
  | _ :: x' => clash p x && clashes p x'
  end.

(** The turns that the deliveries of a run made for call [sid] stand
    for, the deliveries for other calls left out. *)
Fixpoint transcriptOf (sid : jsstring) (reqs : list (Body * N)) (ds : list Directive)
    : list Turn :=
  match reqs, ds with
  | (body, now) :: reqs', d :: ds' =>
      (if decide (callSidOf body now = sid)
       then [userTurn (speechOf body); assistantTurn (message d)]
       else [])
      ++ transcriptOf sid reqs' ds'
  | _, _ => []
  end.

End Twiml.

(** ** Views of a dialer run *)

Module DialerRuns.
Import Num64 Dialer.

(** The events of one pass of the loop of [dialAll] for the contact at
    position [i] of the list, [k] requests having been sent before the
    run. *)
Definition passOf (argv : Argv) (client : Twilio) (k : nat) (i : nat) (contact : Row)
    : list Event :=
  [Request (requestFor argv contact);
   outcomeFor argv client (k + i) (N.of_nat (S i)) contact;
   Sleep (intervalMs (rate argv))].

End DialerRuns.

(** * Properties *)

(** ** Strings *)

Section StringFacts.

Lemma startsWith_map (f : N -> N) (p s : jsstring) :
  startsWith p s = true -> startsWith (List.map f p) (List.map f s) = true.
Proof.
  revert s. induction p as [|a p IH]; intros [|b s]; simpl; try done.
  intros H. apply andb_true_iff in H as [Hab Hps].
  apply N.eqb_eq in Hab. subst b.
  rewrite N.eqb_refl. simpl. by apply IH.
Qed.

Lemma includes_map (f : N -> N) (s p : jsstring) :
  includes s p = true -> includes (List.map f s) (List.map f p) = true.
Proof.
  induction s as [|b s IH]; simpl; intros H.
  - apply orb_true_iff in H as [H|H]; [|done].
    apply (startsWith_map f) in H. simpl in H. by rewrite H.
  - apply orb_true_iff in H as [H|H].
    + apply (startsWith_map f) in H. simpl in H. by rewrite H.
    + apply IH in H. rewrite H. apply orb_true_r.
Qed.

(** Lower-casing keeps an occurrence of a phrase that is already in
    lower case. *)
Lemma includes_toLowerCase (s p : jsstring) :
  toLowerCase p = p -> includes s p = true -> includes (toLowerCase s) p = true.
Proof.
  intros Hp H. rewrite <- Hp. by apply includes_map.
Qed.

Lemma strOr_nil (x : jsstring) : strOr x [] = x.
Proof. by destruct x. Qed.

End StringFacts.

(** ** The reply strategy *)

Module AgentSpec.
Import Agent.

Lemma fallback_lowercased_decline (userText : jsstring) :
  includes (toLowerCase userText) (lit "не интересно") = true
  \/ includes (toLowerCase userText) (lit "неинтересно") = true
  \/ includes (toLowerCase userText) (lit "не надо") = true ->
  ruleBasedFallback userText = closing.
Proof.
  intros H. unfold ruleBasedFallback. rewrite strOr_nil.
  destruct H as [H | [H | H]]; rewrite H; rewrite ?orb_true_r; reflexivity.
Qed.

(** C5. With no completion client configured, [getAgentReply] on an
    input that contains one of the decline phrases answers the polite
    closing text with [shouldHangup = true], whatever the history and the
    state of the process, and leaves that state as it was. *)
Theorem decline_hangs_up_without_client
    (callHistory : list Turn) (latestUserText : jsstring) (w : World) :
  includes latestUserText (lit "не интересно") = true
  \/ includes latestUserText (lit "неинтересно") = true
  \/ includes latestUserText (lit "не надо") = true ->
  getAgentReply None callHistory latestUserText w = (Ok closing, w)
  /\ shouldHangup closing = true.
Proof.
  intros H. split; [|reflexivity].
  cbn [getAgentReply]. unfold mret, M_ret, ret.
  rewrite fallback_lowercased_decline; [reflexivity|].
  destruct H as [H | [H | H]]; [left | right; left | right; right];
    (apply includes_toLowerCase; [vm_compute; reflexivity | exact H]).
Qed.

Lemma decline_hangs_up_without_client_witness :
  getAgentReply None [seed] (lit "Мне это не интересно, спасибо") emptyWorld
    = (Ok closing, emptyWorld)
  /\ shouldHangup closing = true.
Proof.
  apply (decline_hangs_up_without_client [seed]
           (lit "Мне это не интересно, спасибо") emptyWorld).
  left. vm_compute. reflexivity.
Defined.

Lemma buildMessagesFromHistory_cons (history : list Turn) :
  buildMessagesFromHistory history
  = {| role := system; content := SYSTEM_PROMPT |} :: history.
Proof.
  unfold buildMessagesFromHistory. f_equal.
  induction history as [|[r c] history IH]; simpl; [done|]. by rewrite IH.
Qed.

(** What [getAgentReply] does with a client: one request, and a reply
    whatever the outcome. *)
Lemma getAgentReply_client (client : Client) (callHistory : list Turn)
    (latestUserText : jsstring) (w : World) :
  exists reply w',
    getAgentReply (Some client) callHistory latestUserText w = (Ok reply, w')
    /\ callHistories w' = callHistories w
    /\ requests w' = requests w ++ [messagesOf callHistory latestUserText].
Proof.
  cbn [getAgentReply]. unfold tryCatch, mbind, M_bind, bind, create.
  fold (messagesOf callHistory latestUserText).
  destruct (client (length (requests w)) (messagesOf callHistory latestUserText));
    simpl; eauto.
Qed.

Lemma getAgentReply_ok (openaiClient : option Client) (callHistory : list Turn)
    (latestUserText : jsstring) (w : World) :
  exists reply w',
    getAgentReply openaiClient callHistory latestUserText w = (Ok reply, w')
    /\ callHistories w' = callHistories w.
Proof.
  destruct openaiClient as [client|].
  - destruct (getAgentReply_client client callHistory latestUserText w)
      as (reply & w' & H & Hh & _). eauto.
  - simpl. eauto.
Qed.

(** C4 (as the code has it). With a client configured, [getAgentReply]
    always returns a reply and never rejects; when the completion request
    is rejected the reply is that of [ruleBasedFallback] on the latest
    input; when the completion carries no text the reply is the fixed
    follow-up question with [shouldHangup = false], whatever the input. *)
Theorem reply_recovers_locally (client : Client) (callHistory : list Turn)
    (latestUserText : jsstring) (w : World) :
  (exists reply, fst (getAgentReply (Some client) callHistory latestUserText w) = Ok reply)
  /\ (forall err,
        client (length (requests w)) (messagesOf callHistory latestUserText) = Rejects err ->
        fst (getAgentReply (Some client) callHistory latestUserText w)
        = Ok (ruleBasedFallback latestUserText))
  /\ (forall completion,
        client (length (requests w)) (messagesOf callHistory latestUserText)
        = Resolves completion ->
        optOr (firstContent completion) [] = [] ->
        fst (getAgentReply (Some client) callHistory latestUserText w) = Ok followUp).
Proof.
  split; [|split].
  - destruct (getAgentReply_client client callHistory latestUserText w)
      as (reply & w' & H & _). exists reply. by rewrite H.
  - intros err H. cbn [getAgentReply].
    unfold tryCatch, mbind, M_bind, bind, create.
    fold (messagesOf callHistory latestUserText). by rewrite H.
  - intros completion H Hempty. cbn [getAgentReply].
    unfold tryCatch, mbind, M_bind, bind, create.
    fold (messagesOf callHistory latestUserText). rewrite H.
    cbn [fst mret M_ret ret]. rewrite Hempty. reflexivity.
Qed.

Lemma reply_recovers_locally_witness :
  fst (getAgentReply
         (Some (fun _ _ => Rejects {| err_message := Some (lit "timeout");
                                      err_text := lit "Error: timeout" |}))
         [seed] (lit "не надо") emptyWorld)
  = Ok (ruleBasedFallback (lit "не надо")).
Proof.
  apply (proj1 (proj2 (reply_recovers_locally
           (fun _ _ => Rejects {| err_message := Some (lit "timeout");
                                  err_text := lit "Error: timeout" |})
           [seed] (lit "не надо") emptyWorld))
         {| err_message := Some (lit "timeout"); err_text := lit "Error: timeout" |}).
  reflexivity.
Defined.

(** C4, as stated, fails: a completion without text is not answered by
    the fallback rules.  On a declining input the rules would close the
    call, the code asks the follow-up question and keeps listening. *)
Lemma empty_completion_is_not_fallback :
  let client : Client := fun _ _ => Resolves {| choices := Some [] |} in
  fst (getAgentReply (Some client) [seed] (lit "не интересно") emptyWorld) = Ok followUp
  /\ ruleBasedFallback (lit "не интересно") = closing
  /\ fst (getAgentReply (Some client) [seed] (lit "не интересно") emptyWorld)
     <> Ok (ruleBasedFallback (lit "не интересно")).
Proof.
  split; [|split]; [vm_compute; reflexivity | vm_compute; reflexivity |].
  vm_compute. discriminate.
Qed.

End AgentSpec.

(** ** The webhook handlers *)

Module ServerSpec.
Import Agent AgentSpec.

Lemma voice_ok (body : Body) (now : N) (w : World) :
  voice body now w
  = (Ok {| message := intro; gatherNext := true; hangup := false |},
     setHistories (insert (callSidOf body now) [seed]) w).
Proof. reflexivity. Qed.

(** One [/gather] delivery: it answers, and the history under its id is
    the former one (none counting as empty) followed by what was heard
    and what was said; other ids are not touched. *)
Lemma gather_ok (openaiClient : option Client) (body : Body) (now : N) (w : World) :
  exists d w',
    gather openaiClient body now w = (Ok d, w')
    /\ callHistories w' !! callSidOf body now
       = Some (default [] (callHistories w !! callSidOf body now)
               ++ [userTurn (speechOf body); assistantTurn (message d)])
    /\ gatherNext d = negb (hangup d)
    /\ (forall sid, sid <> callSidOf body now ->
          callHistories w' !! sid = callHistories w !! sid).
Proof.
  unfold gather, mbind, M_bind, bind, gets, modify.
  set (sid := callSidOf body now).
  set (history := default [] (callHistories w !! sid) ++ [_]).
  set (w1 := match callHistories w !! sid with
             | Some _ => setHistories (insert sid history) w
             | None => w
             end).
  destruct (getAgentReply_ok openaiClient history (speechOf body) w1)
    as (reply & wr & Hr & Hh).
  rewrite Hr. eexists _, _. split; [reflexivity|]. cbn.
  rewrite Hh. split; [|split; [done|]].
  - rewrite lookup_insert_eq. subst history. by rewrite <- app_assoc.
  - intros sid' Hne. rewrite lookup_insert_ne by done.
    subst w1. destruct (callHistories w !! sid); [|done].
    cbn. by rewrite lookup_insert_ne.
Qed.

Lemma transcript_length (reqs : list (Body * N)) (ds : list Directive) :
  length ds = length reqs -> length (transcript reqs ds) = (2 * length reqs)%nat.
Proof.
  revert ds. induction reqs as [|[body now] reqs IH]; intros [|d ds] H;
    simpl in *; try done.
  rewrite IH by lia. lia.
Qed.

Lemma gatherAll_history (openaiClient : option Client) (sid : jsstring)
    (reqs : list (Body * N)) :
  Forall (fun r => callSidOf r.1 r.2 = sid) reqs ->
  forall (w : World) (h : list Turn),
    callHistories w !! sid = Some h ->
    exists ds w',
      gatherAll openaiClient reqs w = (Ok ds, w')
      /\ length ds = length reqs
      /\ callHistories w' !! sid = Some (h ++ transcript reqs ds).
Proof.
  induction 1 as [|[body now] reqs Hsid _ IH]; intros w h Hw.
  - exists [], w. simpl. by rewrite app_nil_r.
  - simpl in Hsid.
    destruct (gather_ok openaiClient body now w) as (d & w1 & Hg & Hh & _).
    rewrite Hsid, Hw in Hh. simpl in Hh.
    destruct (IH w1 _ Hh) as (ds & w2 & Hall & Hlen & Hh2).
    exists (d :: ds), w2. cbn [gatherAll].
    unfold mbind, M_bind, bind in *. rewrite Hg, Hall.
    split; [done|]. split; [simpl; by rewrite Hlen|].
    rewrite Hh2. by rewrite <- app_assoc.
Qed.

(** C1. After [/voice] and then N [/gather] deliveries for one call id,
    handled in turn, the history stored under that id is the seed turn
    followed, delivery by delivery and in order, by a user turn with the
    speech heard and an assistant turn with the reply spoken; its length
    is 1 + 2N. *)
Theorem history_after_turns (openaiClient : option Client) (sid : jsstring)
    (body0 : Body) (now0 : N) (reqs : list (Body * N)) (w : World) :
  callSidOf body0 now0 = sid ->
  Forall (fun r => callSidOf r.1 r.2 = sid) reqs ->
  exists ds w' h,
    (voice body0 now0;; gatherAll openaiClient reqs) w = (Ok ds, w')
    /\ length ds = length reqs
    /\ callHistories w' !! sid = Some h
    /\ h = seed :: transcript reqs ds
    /\ length h = (1 + 2 * length reqs)%nat.
Proof.
  intros Hsid Hall.
  unfold mbind, M_bind, bind. rewrite voice_ok, Hsid.
  destruct (gatherAll_history openaiClient sid reqs Hall
              (setHistories (insert sid [seed]) w) [seed])
    as (ds & w' & Hrun & Hlen & Hh).
  { cbn. apply lookup_insert_eq. }
  exists ds, w', (seed :: transcript reqs ds). rewrite Hrun.
  repeat split; try done.
  simpl. by rewrite transcript_length.
Qed.

Lemma history_after_turns_witness :
  exists ds w' h,
    (voice (delivery (lit "CA1") []) 7;;
     gatherAll None [(delivery (lit "CA1") (lit "почта"), 8);
                     (delivery (lit "CA1") (lit "не надо"), 9)]) emptyWorld
    = (Ok ds, w')
    /\ length ds = 2%nat
    /\ callHistories w' !! lit "CA1" = Some h
    /\ h = seed :: transcript [(delivery (lit "CA1") (lit "почта"), 8);
                               (delivery (lit "CA1") (lit "не надо"), 9)] ds
    /\ length h = 5%nat.
Proof.
  apply (history_after_turns None (lit "CA1") (delivery (lit "CA1") []) 7
           [(delivery (lit "CA1") (lit "почта"), 8);
            (delivery (lit "CA1") (lit "не надо"), 9)] emptyWorld).
  - reflexivity.
  - repeat constructor.
Defined.

(** C2 (as the code has it). The registry holds histories only, no
    session state.  After a delivery that was answered with a hangup, a
    later [/gather] for the same id is handled like any other: it does
    not fail, it appends a user and an assistant turn to the stored
    history, and it listens again unless its own reply hangs up. *)
Theorem turn_after_hangup_is_handled (openaiClient : option Client)
    (body : Body) (now : N) (w : World) (d : Directive) (w1 : World)
    (body' : Body) (now' : N) :
  gather openaiClient body now w = (Ok d, w1) ->
  hangup d = true ->
  callSidOf body' now' = callSidOf body now ->
  exists d' w2 h,
    gather openaiClient body' now' w1 = (Ok d', w2)
    /\ callHistories w1 !! callSidOf body now = Some h
    /\ callHistories w2 !! callSidOf body now
       = Some (h ++ [userTurn (speechOf body'); assistantTurn (message d')])
    /\ gatherNext d' = negb (hangup d').
Proof.
  intros Hg _ Hsid.
  destruct (gather_ok openaiClient body now w) as (d0 & w0 & Hg0 & Hh0 & _).
  rewrite Hg in Hg0. injection Hg0 as <- <-.
  destruct (gather_ok openaiClient body' now' w1) as (d' & w2 & Hg' & Hh' & Hn & _).
  rewrite Hsid in Hh'. rewrite Hh0 in Hh'. simpl in Hh'.
  eauto 10.
Qed.

Lemma turn_after_hangup_is_handled_witness :
  exists d' w2 h,
    gather None (delivery (lit "CA1") (lit "почта")) 0
      (snd (gather None (delivery (lit "CA1") (lit "не надо")) 0 emptyWorld))
    = (Ok d', w2)
    /\ callHistories (snd (gather None (delivery (lit "CA1") (lit "не надо")) 0 emptyWorld))
         !! callSidOf (delivery (lit "CA1") (lit "не надо")) 0 = Some h
    /\ callHistories w2 !! callSidOf (delivery (lit "CA1") (lit "не надо")) 0
       = Some (h ++ [userTurn (speechOf (delivery (lit "CA1") (lit "почта")));
                     assistantTurn (message d')])
    /\ gatherNext d' = negb (hangup d').
Proof.
  apply (turn_after_hangup_is_handled None
           (delivery (lit "CA1") (lit "не надо")) 0 emptyWorld
           {| message := text closing; gatherNext := false; hangup := true |}
           (snd (gather None (delivery (lit "CA1") (lit "не надо")) 0 emptyWorld))
           (delivery (lit "CA1") (lit "почта")) 0).
  - reflexivity.
  - reflexivity.
  - reflexivity.
Defined.

(** C2, as stated, fails: a call is started, the first turn declines and
    is answered with a hangup; a second turn for the same id is then
    served, the history grows from 3 to 5 turns and the directive asks to
    listen again. *)
Lemma turn_after_hangup_advances_history :
  let run1 := (voice (delivery (lit "CA1") []) 0;;
               gather None (delivery (lit "CA1") (lit "не интересно")) 0) emptyWorld in
  let run2 := gather None (delivery (lit "CA1") (lit "почта")) 0 (snd run1) in
  fst run1 = Ok {| message := text closing; gatherNext := false; hangup := true |}
  /\ length <$> callHistories (snd run1) !! lit "CA1" = Some 3%nat
  /\ fst run2 = Ok {| message := text (ruleBasedFallback (lit "почта"));
                      gatherNext := true; hangup := false |}
  /\ length <$> callHistories (snd run2) !! lit "CA1" = Some 5%nat
  /\ (forall err, fst run2 <> Raised err)
  /\ callHistories (snd run2) !! lit "CA1" <> callHistories (snd run1) !! lit "CA1".
Proof.
  vm_compute. repeat split; intros; discriminate.
Qed.

(** C3 (as the code has it). A [/gather] delivery for an id that the
    registry does not hold is not refused: the handler proceeds from an
    empty history, answers, and stores under that id a history of two
    turns, the user turn and the assistant turn, with no seed turn. *)
Theorem unknown_session_is_created (openaiClient : option Client)
    (body : Body) (now : N) (w : World) :
  callHistories w !! callSidOf body now = None ->
  exists d w',
    gather openaiClient body now w = (Ok d, w')
    /\ callHistories w' !! callSidOf body now
       = Some [userTurn (speechOf body); assistantTurn (message d)].
Proof.
  intros Hnone.
  destruct (gather_ok openaiClient body now w) as (d & w' & Hg & Hh & _).
  rewrite Hnone in Hh. eauto.
Qed.

Lemma unknown_session_is_created_witness :
  exists d w',
    gather None (delivery (lit "CA404") (lit "алло")) 0 emptyWorld = (Ok d, w')
    /\ callHistories w' !! callSidOf (delivery (lit "CA404") (lit "алло")) 0
       = Some [userTurn (speechOf (delivery (lit "CA404") (lit "алло")));
               assistantTurn (message d)].
Proof.
  apply (unknown_session_is_created None (delivery (lit "CA404") (lit "алло")) 0
           emptyWorld).
  reflexivity.
Defined.

(** C3, as stated, fails: on an empty registry a turn for an unknown id
    is answered, not rejected, and the id enters the registry. *)
Lemma unknown_session_does_not_fail :
  let run := gather None (delivery (lit "CA404") (lit "алло")) 0 emptyWorld in
  callHistories emptyWorld !! lit "CA404" = None
  /\ fst run = Ok {| message := text (ruleBasedFallback (lit "алло"));
                     gatherNext := true; hangup := false |}
  /\ (forall err, fst run <> Raised err)
  /\ length <$> callHistories (snd run) !! lit "CA404" = Some 2%nat.
Proof.
  vm_compute. repeat split. intros err. discriminate.
Qed.

(** C9. [/voice] for an id that the registry already holds replaces the
    stored history, whatever it was, by the single seed turn; the
    histories of other ids stay as they were. *)
Theorem call_start_resets_history (body : Body) (now : N) (w : World)
    (h : list Turn) :
  callHistories w !! callSidOf body now = Some h ->
  exists d w',
    voice body now w = (Ok d, w')
    /\ callHistories w' !! callSidOf body now = Some [seed]
    /\ (forall sid, sid <> callSidOf body now ->
          callHistories w' !! sid = callHistories w !! sid).
Proof.
  intros _. rewrite voice_ok. eexists _, _. split; [reflexivity|].
  cbn. split.
  - apply lookup_insert_eq.
  - intros sid Hne. by rewrite lookup_insert_ne.
Qed.

Lemma call_start_resets_history_witness :
  exists d w',
    voice (delivery (lit "CA1") []) 0
      (snd (gather None (delivery (lit "CA1") (lit "почта")) 0 emptyWorld))
    = (Ok d, w')
    /\ callHistories w' !! callSidOf (delivery (lit "CA1") []) 0 = Some [seed]
    /\ (forall sid, sid <> callSidOf (delivery (lit "CA1") []) 0 ->
          callHistories w' !! sid
          = callHistories
              (snd (gather None (delivery (lit "CA1") (lit "почта")) 0 emptyWorld))
              !! sid).
Proof.
  apply (call_start_resets_history (delivery (lit "CA1") []) 0
           (snd (gather None (delivery (lit "CA1") (lit "почта")) 0 emptyWorld))
           [userTurn (lit "почта");
            assistantTurn (text (ruleBasedFallback (lit "почта")))]).
  reflexivity.
Defined.

(** C10. With a client configured, each [/gather] delivery sends exactly
    one completion request, and its messages are the system prompt, the
    history stored before the delivery, and then the utterance just heard
    twice in a row as two user messages: once as the last turn of the
    history handed to [getAgentReply], once added by [getAgentReply]. *)
Theorem latest_utterance_is_sent_twice (client : Client) (body : Body) (now : N)
    (w : World) :
  requests (snd (gather (Some client) body now w))
  = requests w
    ++ [{| role := system; content := SYSTEM_PROMPT |}
        :: default [] (callHistories w !! callSidOf body now)
        ++ [userTurn (speechOf body); userTurn (speechOf body)]].
Proof.
  unfold gather, mbind, M_bind, bind, gets, modify.
  set (sid := callSidOf body now).
  set (history := default [] (callHistories w !! sid) ++ [_]).
  set (w1 := match callHistories w !! sid with
             | Some _ => setHistories (insert sid history) w
             | None => w
             end).
  assert (requests w1 = requests w) as Hw1.
  { subst w1. by destruct (callHistories w !! sid). }
  destruct (getAgentReply_client client history (speechOf body) w1)
    as (reply & wr & Hr & _ & Hreq).
  rewrite Hr. cbn [snd requests setHistories mret M_ret ret].
  rewrite Hreq, Hw1. f_equal. f_equal.
  unfold messagesOf. rewrite buildMessagesFromHistory_cons, strOr_nil.
  subst history. rewrite <- app_comm_cons. f_equal.
  by rewrite <- app_assoc.
Qed.

End ServerSpec.

(** ** Rounding to binary64 *)

Module Num64Facts.
Import Num64.
Local Open Scope Q_scope.

Lemma floor_le_int (x : Q) (M : Z) : x <= inject_Z M -> (Qfloor x <= M)%Z.
Proof.
  intros H. rewrite <- (Qfloor_Z M). by apply Qfloor_resp_le.
Qed.

Lemma int_le_floor (x : Q) (M : Z) : inject_Z M <= x -> (M <= Qfloor x)%Z.
Proof.
  intros H. rewrite <- (Qfloor_Z M). by apply Qfloor_resp_le.
Qed.

Lemma floor_succ_le_int (x : Q) (M : Z) :
  inject_Z (Qfloor x) < x -> x <= inject_Z M -> (Qfloor x + 1 <= M)%Z.
Proof.
  intros Hlt Hle.
  assert (inject_Z (Qfloor x) < inject_Z M) as H by (by apply Qlt_le_trans with x).
  rewrite <- Zlt_Qlt in H. lia.
Qed.

Lemma roundHalfEven_cases (x : Q) :
  roundHalfEven x = Qfloor x
  \/ (roundHalfEven x = (Qfloor x + 1)%Z /\ 1 # 2 <= x - inject_Z (Qfloor x)).
Proof.
  unfold roundHalfEven.
  destruct (Qcompare_spec (x - inject_Z (Qfloor x)) (1 # 2)) as [H | H | H].
  - destruct (Z.even (Qfloor x)); [by left | right]. split; [done|]. by rewrite H.
  - by left.
  - right. split; [done|]. by apply Qlt_le_weak.
Qed.

Lemma roundHalfEven_le (x : Q) (M : Z) : x <= inject_Z M -> (roundHalfEven x <= M)%Z.
Proof.
  intros H. destruct (roundHalfEven_cases x) as [-> | [-> Hd]].
  - by apply floor_le_int.
  - apply floor_succ_le_int; [|done].
    apply Qlt_minus_iff. apply Qlt_le_trans with (1 # 2); [done|].
    unfold Qminus in Hd. exact Hd.
Qed.

Lemma roundHalfEven_ge (x : Q) (M : Z) : inject_Z M <= x -> (M <= roundHalfEven x)%Z.
Proof.
  intros H. apply int_le_floor in H.
  destruct (roundHalfEven_cases x) as [-> | [-> _]]; lia.
Qed.

Lemma roundHalfEven_mono (x y : Q) : x <= y -> (roundHalfEven x <= roundHalfEven y)%Z.
Proof.
  intros H.
  pose proof (Qfloor_resp_le x y H) as Hf.
  destruct (Z.eq_dec (Qfloor x) (Qfloor y)) as [Heq | Hne].
  - unfold roundHalfEven. rewrite <- Heq.
    set (dx := x - inject_Z (Qfloor x)). set (dy := y - inject_Z (Qfloor x)).
    assert (dx <= dy) as Hd by (unfold dx, dy, Qminus; by apply Qplus_le_l).
    destruct (Qcompare_spec dx (1 # 2)) as [Hx | Hx | Hx];
      destruct (Qcompare_spec dy (1 # 2)) as [Hy | Hy | Hy];
      try (destruct (Z.even (Qfloor x))); try lia; exfalso;
      (assert (1 # 2 <= dx) as A
         by (first [apply Qlt_le_weak; exact Hx
                   | apply Qle_lteq; right; symmetry; exact Hx]));
      (assert (dy <= 1 # 2) as B
         by (first [apply Qlt_le_weak; exact Hy | apply Qle_lteq; right; exact Hy]));
      apply (Qlt_irrefl (1 # 2));
      first [ apply Qlt_le_trans with dx; [exact Hx|]; by apply Qle_trans with dy
            | apply Qle_lt_trans with dy; [by apply Qle_trans with dx | exact Hy] ].
  - apply Z.le_trans with (Qfloor y).
    + destruct (roundHalfEven_cases x) as [-> | [-> _]]; lia.
    + apply roundHalfEven_ge, Qfloor_le.
Qed.

Lemma roundHalfEven_near (x : Q) : inject_Z (roundHalfEven x) <= x + (1 # 2).
Proof.
  destruct (roundHalfEven_cases x) as [-> | [-> Hd]].
  - apply Qle_trans with x; [apply Qfloor_le|].
    rewrite <- (Qplus_0_r x) at 1. by apply Qplus_le_r.
  - rewrite inject_Z_plus.
    apply Qle_minus_iff. apply Qle_minus_iff in Hd.
    setoid_replace (x + (1 # 2) + - (inject_Z (Qfloor x) + inject_Z 1))
      with (x - inject_Z (Qfloor x) + - (1 # 2)) using relation Qeq by ring.
    exact Hd.
Qed.

Lemma pow2_pos (z : Z) : 0 < pow2 z.
Proof.
  unfold pow2. destruct (0 <=? z)%Z eqn:E.
  - change 0 with (inject_Z 0). rewrite <- Zlt_Qlt. apply Z.pow_pos_nonneg; lia.
  - apply Qinv_lt_0_compat. change 0 with (inject_Z 0). rewrite <- Zlt_Qlt.
    apply Z.pow_pos_nonneg; lia.
Qed.

(** For an exponent that is not positive, [pow2] is the inverse of a
    positive integer. *)
Lemma pow2_nonpos (z : Z) :
  (z <= 0)%Z -> exists P : Z, (0 < P)%Z /\ pow2 z * inject_Z P == 1.
Proof.
  intros Hz. exists (2 ^ (- z))%Z.
  assert (0 < 2 ^ (- z))%Z as HP by (apply Z.pow_pos_nonneg; lia).
  split; [done|]. unfold pow2. destruct (0 <=? z)%Z eqn:E.
  - apply Z.leb_le in E. assert (z = 0)%Z as -> by lia. reflexivity.
  - rewrite Qmult_comm. apply Qmult_inv_r.
    intros H. rewrite Zlt_Qlt in HP. rewrite H in HP. by apply Qlt_irrefl in HP.
Qed.

(** Rounding to a multiple of [p], the inverse of a positive integer:
    it does not cross an integer, and moves its argument by at most a
    half. *)
Section Nearest.
Variables (a p : Q) (P : Z).
Hypothesis Hp : 0 < p.
Hypothesis HP : (0 < P)%Z.
Hypothesis HpP : p * inject_Z P == 1.

Lemma scaled_le (K : Z) :
  a <= inject_Z K -> inject_Z (roundHalfEven (a / p)) * p <= inject_Z K.
Proof.
  intros H.
  assert (a / p <= inject_Z (K * P)) as Hx.
  { apply Qle_shift_div_r; [done|].
    rewrite inject_Z_mult, <- Qmult_assoc, (Qmult_comm (inject_Z P)), HpP, Qmult_1_r.
    done. }
  apply roundHalfEven_le in Hx. rewrite Zle_Qle in Hx.
  apply Qle_trans with (inject_Z (K * P) * p).
  - apply Qmult_le_compat_r; [done | by apply Qlt_le_weak].
  - rewrite inject_Z_mult, <- Qmult_assoc, (Qmult_comm (inject_Z P)), HpP, Qmult_1_r.
    apply Qle_refl.
Qed.

Lemma scaled_ge (K : Z) :
  inject_Z K <= a -> inject_Z K <= inject_Z (roundHalfEven (a / p)) * p.
Proof.
  intros H.
  assert (inject_Z (K * P) <= a / p) as Hx.
  { apply Qle_shift_div_l; [done|].
    rewrite inject_Z_mult, <- Qmult_assoc, (Qmult_comm (inject_Z P)), HpP, Qmult_1_r.
    done. }
  apply roundHalfEven_ge in Hx. rewrite Zle_Qle in Hx.
  apply Qle_trans with (inject_Z (K * P) * p).
  - rewrite inject_Z_mult, <- Qmult_assoc, (Qmult_comm (inject_Z P)), HpP, Qmult_1_r.
    apply Qle_refl.
  - apply Qmult_le_compat_r; [done | by apply Qlt_le_weak].
Qed.

Lemma p_le_1 : p <= 1.
Proof.
  rewrite <- HpP. rewrite <- (Qmult_1_r p) at 1.
  apply Qmult_le_l; [done|]. change 1 with (inject_Z 1). rewrite <- Zle_Qle. lia.
Qed.

Lemma scaled_near : inject_Z (roundHalfEven (a / p)) * p <= a + (1 # 2).
Proof.
  apply Qle_trans with ((a / p + (1 # 2)) * p).
  - apply Qmult_le_compat_r; [apply roundHalfEven_near | by apply Qlt_le_weak].
  - rewrite Qmult_plus_distr_l.
    setoid_replace (a / p * p) with a using relation Qeq
      by (field; intros E; rewrite E in Hp; by apply Qlt_irrefl in Hp).
    apply Qplus_le_r.
    rewrite <- (Qmult_1_r (1 # 2)) at 2.
    apply Qmult_le_l; [done | apply p_le_1].
Qed.
End Nearest.

Lemma binade_ge_one (a : Q) : 1 <= a -> binade a = Z.log2 (Qfloor a).
Proof.
  intros H. unfold binade. apply Qle_bool_iff in H. by rewrite H.
Qed.

Lemma ulpExp_small (a : Q) : a <= 60000 -> (ulpExp a <= 0)%Z.
Proof.
  intros H. unfold ulpExp, binade.
  destruct (Qle_bool 1 a).
  - assert (Z.log2 (Qfloor a) <= Z.log2 60000)%Z as Hl.
    { apply Z.log2_le_mono. by apply (floor_le_int a 60000). }
    change (Z.log2 60000) with 15%Z in Hl. lia.
  - pose proof (Z.log2_up_nonneg (Qceiling (/ a))). lia.
Qed.

Lemma nearest_le (a : Q) (K : Z) :
  a <= 60000 -> a <= inject_Z K -> nearest a <= inject_Z K.
Proof.
  intros Hb HK. unfold nearest. fold (ulpExp a).
  destruct (pow2_nonpos (ulpExp a) (ulpExp_small a Hb)) as (P & HP & HpP).
  by apply (scaled_le a (pow2 (ulpExp a)) P (pow2_pos _) HpP).
Qed.

Lemma nearest_ge (a : Q) (K : Z) :
  a <= 60000 -> inject_Z K <= a -> inject_Z K <= nearest a.
Proof.
  intros Hb HK. unfold nearest. fold (ulpExp a).
  destruct (pow2_nonpos (ulpExp a) (ulpExp_small a Hb)) as (P & HP & HpP).
  by apply (scaled_ge a (pow2 (ulpExp a)) P (pow2_pos _) HpP).
Qed.

Lemma nearest_near (a : Q) : a <= 60000 -> nearest a <= a + (1 # 2).
Proof.
  intros Hb. unfold nearest. fold (ulpExp a).
  destruct (pow2_nonpos (ulpExp a) (ulpExp_small a Hb)) as (P & HP & HpP).
  by apply (scaled_near a (pow2 (ulpExp a)) P (pow2_pos _) HP HpP).
Qed.

Lemma nearest_mono (a1 a2 : Q) :
  1 <= a1 -> a1 <= a2 -> a2 <= 60000 -> nearest a1 <= nearest a2.
Proof.
  intros H1 H12 Hb.
  assert (1 <= a2) as H2 by (by apply Qle_trans with a1).
  assert (a1 <= 60000) as Hb1 by (by apply Qle_trans with a2).
  assert (1 <= Qfloor a1)%Z as Hf1 by (by apply (int_le_floor a1 1)).
  pose proof (Qfloor_resp_le a1 a2 H12) as Hf.
  pose proof (Z.log2_le_mono _ _ Hf) as Hl.
  destruct (Z.eq_dec (Z.log2 (Qfloor a1)) (Z.log2 (Qfloor a2))) as [Heq | Hne].
  - unfold nearest, ulpExp. rewrite !binade_ge_one, <- Heq by done.
    set (p := pow2 _).
    apply Qmult_le_compat_r; [|apply Qlt_le_weak, pow2_pos].
    rewrite <- Zle_Qle. apply roundHalfEven_mono.
    unfold Qdiv. apply Qmult_le_compat_r; [done|].
    apply Qlt_le_weak, Qinv_lt_0_compat, pow2_pos.
  - set (K := (2 ^ Z.log2 (Qfloor a2))%Z).
    apply Qle_trans with (inject_Z K).
    + apply nearest_le; [done|].
      apply Qle_trans with (inject_Z (Qfloor a1 + 1)); [apply Qlt_le_weak, Qlt_floor|].
      rewrite <- Zle_Qle.
      destruct (Z.log2_spec (Qfloor a1)) as [_ Hu]; [lia|].
      assert (2 ^ Z.succ (Z.log2 (Qfloor a1)) <= K)%Z; [|lia].
      apply Z.pow_le_mono_r; lia.
    + apply nearest_ge; [done|].
      apply Qle_trans with (inject_Z (Qfloor a2)); [|apply Qfloor_le].
      rewrite <- Zle_Qle.
      destruct (Z.log2_spec (Qfloor a2)) as [Hlow _]; [lia | exact Hlow].
Qed.

Lemma atLeastOne_ge (q : Q) : 1 <= atLeastOne q.
Proof.
  unfold atLeastOne. destruct (Qle_bool 1 q) eqn:E; [by apply Qle_bool_iff|done].
Qed.

Lemma quotient_bounds (m : Q) : 1 <= m -> 0 < 60000 / m /\ 60000 / m <= 60000.
Proof.
  intros H. assert (0 < m) as Hm by (by apply Qlt_le_trans with 1).
  split.
  - apply Qlt_shift_div_l; [done|]. by rewrite Qmult_0_l.
  - apply Qle_shift_div_r; [done|].
    rewrite <- (Qmult_1_r 60000) at 1. by apply Qmult_le_l.
Qed.

Lemma quotient_antitone (m1 m2 : Q) :
  1 <= m1 -> m1 <= m2 -> 60000 / m2 <= 60000 / m1.
Proof.
  intros H1 H12.
  assert (0 < m1) as Hm1 by (by apply Qlt_le_trans with 1).
  assert (0 < m2) as Hm2 by (by apply Qlt_le_trans with m1).
  apply Qle_shift_div_r; [done|].
  setoid_replace (60000 / m1 * m2) with (60000 * (m2 / m1)) using relation Qeq
    by (field; intros E; rewrite E in Hm1; by apply Qlt_irrefl in Hm1).
  rewrite <- (Qmult_1_r 60000) at 1. apply Qmult_le_l; [done|].
  apply Qle_shift_div_l; [done|]. by rewrite Qmult_1_l.
Qed.

Lemma mathMax_finite (a b : Z) :
  mathMax (Finite (inject_Z a)) (Finite (inject_Z b)) = Finite (inject_Z (Z.max a b)).
Proof.
  unfold mathMax, numLeb. destruct (Qle_bool (inject_Z a) (inject_Z b)) eqn:E.
  - apply Qle_bool_iff in E. rewrite <- Zle_Qle in E. by rewrite Z.max_r.
  - destruct (Z.le_gt_cases a b) as [H | H].
    + rewrite Zle_Qle in H. apply Qle_bool_iff in H. congruence.
    + by rewrite Z.max_l by lia.
Qed.

Lemma compare_pos (x : Q) : 0 < x -> Qcompare x 0 = Gt.
Proof.
  intros H. destruct (Qcompare_spec x 0) as [E | E | E]; [| |done]; exfalso.
  - rewrite E in H. by apply Qlt_irrefl in H.
  - apply (Qlt_irrefl 0). by apply Qlt_trans with x.
Qed.

Lemma divide_by_at_least_one (m : Q) :
  1 <= m -> divide (Finite 60000) (Finite m) = Finite (nearest (60000 / m)).
Proof.
  intros H. destruct (quotient_bounds m H) as [Hpos Hle].
  assert (0 < m) as Hm by (by apply Qlt_le_trans with 1).
  unfold divide. rewrite (compare_pos m Hm).
  unfold round64. rewrite (compare_pos (60000 / m) Hpos).
  destruct (Qle_bool (pow2 1024) (nearest (60000 / m))) eqn:E; [|done].
  exfalso. apply Qle_bool_iff in E.
  pose proof (nearest_le (60000 / m) 60000 Hle Hle) as Hn.
  assert (pow2 1024 <= 60000) as Habs by (by apply Qle_trans with (nearest (60000 / m))).
  vm_compute in Habs. by apply Habs.
Qed.

End Num64Facts.

(** ** The interval between two calls *)

Module IntervalFacts.
Import Num64 Dialer Num64Facts.
Local Open Scope Q_scope.

Lemma intervalMs_finite (q : Q) :
  intervalMs (Finite q)
  = Finite (inject_Z (Z.max 5000 (Qfloor (nearest (60000 / atLeastOne q))))).
Proof.
  unfold intervalMs.
  assert (mathMax (Finite 1) (Finite q) = Finite (atLeastOne q)) as ->.
  { unfold mathMax, numLeb, atLeastOne. by destruct (Qle_bool 1 q). }
  rewrite divide_by_at_least_one by apply atLeastOne_ge.
  cbn [mathFloor]. apply (mathMax_finite 5000).
Qed.

Lemma floor_nearest_le (a : Q) (K : Z) :
  a <= 60000 -> a <= inject_Z K -> (Qfloor (nearest a) <= K)%Z.
Proof. intros Hb HK. by apply floor_le_int, nearest_le. Qed.

Lemma interval_clamped (q : Q) : 12 <= q -> intervalMs (Finite q) = Finite 5000.
Proof.
  intros H. rewrite intervalMs_finite.
  assert (1 <= q) as H1 by (by apply Qle_trans with 12).
  unfold atLeastOne. rewrite (proj2 (Qle_bool_iff 1 q) H1).
  destruct (quotient_bounds q H1) as [_ Hle].
  rewrite Z.max_l; [done|].
  apply floor_nearest_le; [done|].
  apply Qle_trans with (60000 / 12); [by apply quotient_antitone | done].
Qed.

Lemma interval_below_one (q : Q) : q < 1 -> intervalMs (Finite q) = Finite 60000.
Proof.
  intros H. rewrite intervalMs_finite. unfold atLeastOne.
  destruct (Qle_bool 1 q) eqn:E.
  - apply Qle_bool_iff in E. exfalso. by apply (Qlt_not_le q 1).
  - vm_compute. reflexivity.
Qed.

Lemma interval_whole (n : Z) :
  (1 <= n)%Z ->
  intervalMs (Finite (inject_Z n)) = Finite (inject_Z (Z.max 5000 (60000 / n))).
Proof.
  intros H. destruct (Z.le_gt_cases 12 n) as [H12 | H12].
  - rewrite interval_clamped by (by rewrite Zle_Qle in H12).
    rewrite Z.max_l; [done|].
    apply Z.le_trans with (60000 / 12)%Z; [|done].
    apply Z.div_le_compat_l; lia.
  - assert (exists k : nat, (k < 12)%nat /\ n = Z.of_nat k) as (k & Hk & ->)
      by (exists (Z.to_nat n); lia).
    do 12 (destruct k as [|k]; [try lia; vm_compute; reflexivity|]).
    lia.
Qed.

Lemma interval_near_exact (q : Q) :
  1 <= q ->
  exists k : Z,
    intervalMs (Finite q) = Finite (inject_Z k)
    /\ (Z.max 5000 (Qfloor (60000 / q)) <= k <= Z.max 5000 (Qfloor (60000 / q)) + 1)%Z.
Proof.
  intros H. rewrite intervalMs_finite. unfold atLeastOne.
  rewrite (proj2 (Qle_bool_iff 1 q) H).
  destruct (quotient_bounds q H) as [_ Hle].
  set (a := 60000 / q) in *.
  eexists. split; [reflexivity|].
  assert (Qfloor a <= Qfloor (nearest a))%Z as Hlow.
  { apply int_le_floor, nearest_ge; [done | apply Qfloor_le]. }
  assert (Qfloor (nearest a) < Qfloor a + 2)%Z as Hup.
  { rewrite Zlt_Qlt.
    apply Qle_lt_trans with (nearest a); [apply Qfloor_le|].
    apply Qle_lt_trans with (a + (1 # 2)); [by apply nearest_near|].
    replace (Qfloor a + 2)%Z with ((Qfloor a + 1) + 1)%Z by lia.
    rewrite (inject_Z_plus (Qfloor a + 1) 1).
    apply Qplus_lt_le_compat; [apply Qlt_floor | done]. }
  lia.
Qed.

Lemma interval_in_range (q : Q) :
  exists k : Z,
    intervalMs (Finite q) = Finite (inject_Z k) /\ (5000 <= k <= 60000)%Z.
Proof.
  rewrite intervalMs_finite. eexists. split; [reflexivity|].
  destruct (quotient_bounds (atLeastOne q) (atLeastOne_ge q)) as [_ Hle].
  pose proof (floor_nearest_le _ 60000 Hle Hle). lia.
Qed.

Lemma atLeastOne_mono (q1 q2 : Q) : q1 <= q2 -> atLeastOne q1 <= atLeastOne q2.
Proof.
  intros H. unfold atLeastOne at 1. destruct (Qle_bool 1 q1) eqn:E.
  - apply Qle_bool_iff in E. unfold atLeastOne.
    rewrite (proj2 (Qle_bool_iff 1 q2)); [done | by apply Qle_trans with q1].
  - apply atLeastOne_ge.
Qed.

Lemma interval_antitone_finite (q1 q2 : Q) :
  q1 <= q2 ->
  (Z.max 5000 (Qfloor (nearest (60000 / atLeastOne q2)))
   <= Z.max 5000 (Qfloor (nearest (60000 / atLeastOne q1))))%Z.
Proof.
  intros H.
  pose proof (atLeastOne_ge q1) as H1. pose proof (atLeastOne_mono q1 q2 H) as H12.
  assert (1 <= atLeastOne q2) as H2 by apply atLeastOne_ge.
  pose proof (quotient_antitone _ _ H1 H12) as Ha.
  destruct (quotient_bounds _ H1) as [_ Hb1]. destruct (quotient_bounds _ H2) as [_ Hb2].
  set (a1 := 60000 / atLeastOne q1) in *. set (a2 := 60000 / atLeastOne q2) in *.
  destruct (Qlt_le_dec a2 1) as [Hsmall | Hbig].
  - pose proof (floor_nearest_le a2 1 Hb2 (Qlt_le_weak _ _ Hsmall)). lia.
  - pose proof (Qfloor_resp_le _ _ (nearest_mono a2 a1 Hbig Ha Hb1)). lia.
Qed.

End IntervalFacts.

(** ** The dialer *)

Module DialerSpec.
Import Num64 Dialer Num64Facts IntervalFacts.

(** C6 (as the code has it). The wait between two calls is
    [Math.max(5000, Math.floor(60000 / Math.max(1, rate)))], computed in
    binary64.  For every rate of 12 or more, the infinite one included,
    it is 5000; for every rate below one, zero and the negative ones
    included, the rate is raised to one and the wait is 60000; for every
    whole rate [n] from one on it is [max(5000, floor(60000 / n))]; for
    every other rate of at least one it is that formula's value or one
    more, the quotient being rounded before it is floored; for a rate
    that is not a number it is not a number. *)
Theorem interval_of_rate (rate : Q) (n : Z) :
  ((12 <= rate)%Q -> intervalMs (Finite rate) = Finite 5000)
  /\ intervalMs (Infinity false) = Finite 5000
  /\ ((rate < 1)%Q -> intervalMs (Finite rate) = Finite 60000)
  /\ intervalMs (Infinity true) = Finite 60000
  /\ ((1 <= n)%Z ->
      intervalMs (Finite (inject_Z n)) = Finite (inject_Z (Z.max 5000 (60000 / n))))
  /\ ((1 <= rate)%Q ->
      exists k : Z,
        intervalMs (Finite rate) = Finite (inject_Z k)
        /\ (Z.max 5000 (Qfloor (60000 / rate)) <= k
            <= Z.max 5000 (Qfloor (60000 / rate)) + 1)%Z)
  /\ intervalMs NaN = NaN.
Proof.
  split; [apply interval_clamped|].
  split; [vm_compute; reflexivity|].
  split; [apply interval_below_one|].
  split; [vm_compute; reflexivity|].
  split; [apply interval_whole|].
  split; [apply interval_near_exact|].
  reflexivity.
Qed.

Lemma interval_of_rate_witness :
  intervalMs (Finite 30) = Finite 5000
  /\ intervalMs (Finite (1 # 2)) = Finite 60000
  /\ intervalMs (Finite (inject_Z 7)) = Finite (inject_Z (Z.max 5000 (60000 / 7)))
  /\ exists k : Z,
       intervalMs (Finite (1688174590427765 # 140737488355328)) = Finite (inject_Z k)
       /\ (Z.max 5000 (Qfloor (60000 / (1688174590427765 # 140737488355328))) <= k
           <= Z.max 5000 (Qfloor (60000 / (1688174590427765 # 140737488355328))) + 1)%Z.
Proof.
  split; [|split; [|split]].
  - apply (proj1 (interval_of_rate 30 7)). vm_compute. discriminate.
  - apply (proj1 (proj2 (proj2 (interval_of_rate (1 # 2) 7)))). vm_compute. reflexivity.
  - apply (proj1 (proj2 (proj2 (proj2 (proj2 (interval_of_rate 30 7)))))). lia.
  - apply (proj1 (proj2 (proj2 (proj2 (proj2 (proj2
             (interval_of_rate (1688174590427765 # 140737488355328) 7))))))).
    vm_compute. discriminate.
Defined.

(** C6, as stated, fails for a positive rate below one call per
    minute: at one call every two minutes the formula of the claim gives
    120000 ms, the code waits 60000 ms. *)
Lemma interval_at_half_a_call_per_minute :
  (0 < 1 # 2)%Q
  /\ intervalMs (Finite (1 # 2)) = Finite 60000
  /\ Z.max 5000 (Qfloor (60000 / (1 # 2))) = 120000%Z
  /\ intervalMs (Finite (1 # 2))
     <> Finite (inject_Z (Z.max 5000 (Qfloor (60000 / (1 # 2))))).
Proof.
  split; [reflexivity|]. split; [vm_compute; reflexivity|]. split; [reflexivity|].
  vm_compute. discriminate.
Qed.

(** The quotient is rounded to binary64 before it is floored: at the
    rate 11.995201919232308 the exact quotient is below 5002, the
    rounded one is 5002. *)
Example interval_is_rounded_before_the_floor :
  intervalMs (Finite (1688174590427765 # 140737488355328)) = Finite 5002
  /\ Qfloor (60000 / (1688174590427765 # 140737488355328)) = 5001%Z.
Proof. split; vm_compute; reflexivity. Qed.

Lemma attempts_app (tr1 tr2 : list Event) :
  attempts (tr1 ++ tr2) = attempts tr1 ++ attempts tr2.
Proof. apply omap_app. Qed.

Lemma outcomes_app (tr1 tr2 : list Event) :
  outcomes (tr1 ++ tr2) = outcomes tr1 ++ outcomes tr2.
Proof. apply List.filter_app. Qed.

Lemma outcomeFor_cases (argv : Argv) (client : Twilio) (k : nat) (index : N)
    (contact : Row) :
  (exists sid, outcomeFor argv client k index contact = LogCreated index (toOf contact) sid)
  \/ (exists reason,
        outcomeFor argv client k index contact = LogError index (toOf contact) reason).
Proof.
  unfold outcomeFor. destruct (client k (requestFor argv contact)); eauto.
Qed.

(** One pass of the loop body: the request, the line for its outcome,
    the wait; then the rest of the list. *)
Lemma dialLoop_cons (argv : Argv) (client : Twilio) (interval : number) (index : N)
    (contact : Row) (rest : list Row) (tr : list Event) :
  is_Some (phoneOf contact) ->
  dialLoop argv client interval index (contact :: rest) tr
  = dialLoop argv client interval (index + 1) rest
      (tr ++ [Request (requestFor argv contact);
              outcomeFor argv client (length (attempts tr)) (index + 1) contact;
              Sleep interval]).
Proof.
  intros [p Hp]. cbn [dialLoop].
  unfold outcomeFor, requestFor, toOf. rewrite Hp. cbn [from_option id].
  unfold mbind, M_bind, bind, tryCatch, createCall, emit, modify, mret, M_ret, ret.
  destruct (client (length (attempts tr)) (paramsFor argv (trim p)));
    rewrite <- !app_assoc; reflexivity.
Qed.

Lemma dialLoop_trace (argv : Argv) (client : Twilio) (interval : number)
    (contacts : list Row) :
  Forall (fun c => is_Some (phoneOf c)) contacts ->
  forall (index : N) (tr : list Event),
  exists tr',
    dialLoop argv client interval index contacts tr = (Ok tt, tr ++ tr')
    /\ attempts tr' = List.map (requestFor argv) contacts
    /\ outcomes tr'
       = imap (fun i c => outcomeFor argv client (length (attempts tr) + i)
                            (index + N.of_nat (S i)) c) contacts
    /\ List.filter isSleep tr' = replicate (length contacts) (Sleep interval).
Proof.
  induction 1 as [|contact rest Hc _ IH]; intros index tr.
  - exists []. by rewrite app_nil_r.
  - rewrite dialLoop_cons by done.
    set (step := [Request _; outcomeFor _ _ _ _ _; Sleep _]).
    destruct (IH (index + 1) (tr ++ step)) as (tr' & Hrun & Hat & Hout & Hsl).
    exists (step ++ tr'). rewrite Hrun, <- app_assoc. split; [done|].
    rewrite attempts_app, outcomes_app, List.filter_app, Hat, Hout, Hsl.
    assert (attempts step = [requestFor argv contact]) as Hstep.
    { subst step. cbn.
      by destruct (outcomeFor_cases argv client (length (attempts tr)) (index + 1)
                     contact) as [[x ->] | [x ->]]. }
    assert (outcomes step
            = [outcomeFor argv client (length (attempts tr)) (index + 1) contact])
      as Hostep.
    { subst step. cbn.
      by destruct (outcomeFor_cases argv client (length (attempts tr)) (index + 1)
                     contact) as [[x ->] | [x ->]]. }
    assert (List.filter isSleep step = [Sleep interval]) as Hsstep.
    { subst step. cbn.
      by destruct (outcomeFor_cases argv client (length (attempts tr)) (index + 1)
                     contact) as [[x ->] | [x ->]]. }
    rewrite Hstep, Hostep, Hsstep. split; [done|]. split; [|done].
    cbn [imap app]. f_equal.
    + f_equal; lia.
    + apply imap_ext. intros i c _. cbn.
      rewrite attempts_app, Hstep, length_app. cbn.
      f_equal; lia.
Qed.

(** C7. [dialAll] on contacts that all carry a phone number completes,
    and sends one request per contact, in the order of the list; the
    i-th contact gets one outcome line, an error line exactly when the
    service refused its request and a creation line otherwise, whatever
    happened to the contacts before it; no request is sent again. *)
Theorem placement_failure_is_isolated (argv : Argv) (client : Twilio)
    (contacts : list Row) (tr0 : list Event) :
  Forall (fun c => is_Some (phoneOf c)) contacts ->
  exists tr,
    dialAll argv client contacts tr0 = (Ok tt, tr0 ++ tr)
    /\ attempts tr = List.map (requestFor argv) contacts
    /\ outcomes tr
       = imap (fun i c => outcomeFor argv client (length (attempts tr0) + i)
                            (N.of_nat (S i)) c) contacts
    /\ length (attempts tr) = length contacts
    /\ length (outcomes tr) = length contacts.
Proof.
  intros Hall. unfold dialAll.
  destruct (dialLoop_trace argv client (intervalMs (rate argv)) contacts Hall 0 tr0)
    as (tr & Hrun & Hat & Hout & _).
  exists tr. split; [done|]. split; [done|]. split; [exact Hout|].
  split.
  - by rewrite Hat, length_map.
  - by rewrite Hout, length_imap.
Qed.

Lemma placement_failure_is_isolated_witness :
  exists tr,
    dialAll argvDefault refusesSecond threeContacts [] = (Ok tt, [] ++ tr)
    /\ attempts tr = List.map (requestFor argvDefault) threeContacts
    /\ outcomes tr
       = imap (fun i c => outcomeFor argvDefault refusesSecond
                            (length (attempts []) + i) (N.of_nat (S i)) c)
           threeContacts
    /\ length (attempts tr) = length threeContacts
    /\ length (outcomes tr) = length threeContacts.
Proof.
  apply (placement_failure_is_isolated argvDefault refusesSecond threeContacts []).
  repeat constructor; eexists; vm_compute; reflexivity.
Defined.

(** The run of the witness, line by line: the second of three contacts
    is refused, the first and the third are placed. *)
Example second_of_three_refused :
  outcomes (snd (dialAll argvDefault refusesSecond threeContacts []))
  = [LogCreated 1 (lit "+79000000001") (lit "CA0");
     LogError 2 (lit "+79000000002") (lit "busy");
     LogCreated 3 (lit "+79000000003") (lit "CA2")].
Proof. vm_compute. reflexivity. Qed.

Lemma filter_hasPhone (rows : list Row) :
  Forall (fun c => is_Some (phoneOf c)) (List.filter hasPhone rows).
Proof.
  apply Forall_forall. intros c Hc.
  apply list_elem_of_In, filter_In in Hc as [_ Hc].
  unfold hasPhone in Hc. destruct (phoneOf c); [eauto | done].
Qed.

(** C8. [main] dials the rows that carry a non-empty [phone] only, in
    their order: rows without one lead to no request and to no wait.
    When no row is left, [main] prints the error line and exits with
    status 1, without any request or wait. *)
Theorem rows_without_phone_are_dropped (argv : Argv) (client : Twilio)
    (parseCsv : jsstring -> CsvStream) :
  failure (parseCsv (csv argv)) = None ->
  exists tr,
    main argv client parseCsv [] = (Ok tt, tr)
    /\ attempts tr
       = List.map (requestFor argv) (List.filter hasPhone (rows (parseCsv (csv argv))))
    /\ List.filter isSleep tr
       = replicate (length (List.filter hasPhone (rows (parseCsv (csv argv)))))
           (Sleep (intervalMs (rate argv)))
    /\ (List.filter hasPhone (rows (parseCsv (csv argv))) = [] ->
        tr = [ErrorLine (lit "В CSV нет записей с полем 'phone'"); Exit 1]).
Proof.
  intros Hfail. unfold main, readContacts. rewrite Hfail.
  set (contacts := List.filter hasPhone _).
  assert (Forall (fun c => is_Some (phoneOf c)) contacts) as Hall
    by apply filter_hasPhone.
  clearbody contacts.
  unfold mbind, M_bind, bind, mret, M_ret, ret, emit, modify.
  destruct contacts as [|c rest].
  - cbn [length Nat.eqb app]. eexists. split; [reflexivity|].
    split; [reflexivity|]. split; [reflexivity|]. intros _. reflexivity.
  - cbn [length Nat.eqb app].
    set (found := Log _).
    destruct (dialLoop_trace argv client (intervalMs (rate argv)) (c :: rest)
                Hall 0 [found]) as (tr & Hrun & Hat & _ & Hsl).
    unfold dialAll. rewrite Hrun.
    eexists. split; [reflexivity|].
    rewrite !attempts_app, !List.filter_app, Hat, Hsl.
    change (attempts [found]) with (@nil Params).
    change (attempts [Log (lit "Готово")]) with (@nil Params).
    change (List.filter isSleep [found]) with (@nil Event).
    change (List.filter isSleep [Log (lit "Готово")]) with (@nil Event).
    rewrite !app_nil_r. split; [done|]. split; [done|]. discriminate.
Qed.

Lemma rows_without_phone_are_dropped_witness :
  exists tr,
    main argvDefault refusesSecond
      (fun _ => {| rows := [contactOf (lit "+79000000001"); unnamed (lit "Иван");
                            contactOf []; contactOf (lit "+79000000003")];
                   failure := None |}) []
    = (Ok tt, tr)
    /\ attempts tr
       = List.map (requestFor argvDefault)
           (List.filter hasPhone
              [contactOf (lit "+79000000001"); unnamed (lit "Иван");
               contactOf []; contactOf (lit "+79000000003")])
    /\ List.filter isSleep tr
       = replicate
           (length (List.filter hasPhone
                      [contactOf (lit "+79000000001"); unnamed (lit "Иван");
                       contactOf []; contactOf (lit "+79000000003")]))
           (Sleep (intervalMs (rate argvDefault)))
    /\ (List.filter hasPhone
          [contactOf (lit "+79000000001"); unnamed (lit "Иван");
           contactOf []; contactOf (lit "+79000000003")] = [] ->
        tr = [ErrorLine (lit "В CSV нет записей с полем 'phone'"); Exit 1]).
Proof.
  apply (rows_without_phone_are_dropped argvDefault refusesSecond
           (fun _ => {| rows := [contactOf (lit "+79000000001"); unnamed (lit "Иван");
                                 contactOf []; contactOf (lit "+79000000003")];
                        failure := None |})).
  reflexivity.
Defined.

(** Two runs of [main]: four rows of which two can be dialled give two
    requests and two waits; rows that all lack a phone give the error
    line and the exit, nothing else. *)
Example two_of_four_rows_dialled :
  let tr := snd (main argvDefault refusesSecond
                   (fun _ => {| rows := [contactOf (lit "+79000000001");
                                         unnamed (lit "Иван"); contactOf [];
                                         contactOf (lit "+79000000003")];
                                failure := None |}) []) in
  List.map to (attempts tr) = [lit "+79000000001"; lit "+79000000003"]
  /\ List.filter isSleep tr = [Sleep (Finite 5000); Sleep (Finite 5000)].
Proof. vm_compute. split; reflexivity. Qed.

Example no_usable_row_is_fatal :
  main argvDefault refusesSecond
    (fun _ => {| rows := [unnamed (lit "Иван"); contactOf []]; failure := None |}) []
  = (Ok tt, [ErrorLine (lit "В CSV нет записей с полем 'phone'"); Exit 1]).
Proof. vm_compute. reflexivity. Qed.

End DialerSpec.

(** ** Escaping and rendering *)

Module TwimlSpec.
Import Agent Twiml.

Lemma replaceAll_app (c : N) (r a b : jsstring) :
  replaceAll c r (a ++ b) = replaceAll c r a ++ replaceAll c r b.
Proof. apply flat_map_app. Qed.

Lemma escapeXml_app (a b : jsstring) :
  escapeXml (a ++ b) = escapeXml a ++ escapeXml b.
Proof. unfold escapeXml. by rewrite !replaceAll_app. Qed.

Lemma escapeXml_unit (u : N) : escapeXml [u] = escapeUnit u.
Proof.
  unfold escapeUnit.
  destruct (N.eqb_spec u 38) as [->|H38]; [reflexivity|].
  destruct (N.eqb_spec u 60) as [->|H60]; [reflexivity|].
  destruct (N.eqb_spec u 62) as [->|H62]; [reflexivity|].
  destruct (N.eqb_spec u 34) as [->|H34]; [reflexivity|].
  destruct (N.eqb_spec u 39) as [->|H39]; [reflexivity|].
  apply N.eqb_neq in H38, H60, H62, H34, H39.
  unfold escapeXml, replaceAll. cbn [flat_map app].
  rewrite H38. cbn [flat_map app]. rewrite H60. cbn [flat_map app].
  rewrite H62. cbn [flat_map app]. rewrite H34. cbn [flat_map app].
  by rewrite H39.
Qed.

Lemma escapeXml_flat_map (unsafe : jsstring) :
  escapeXml unsafe = flat_map escapeUnit unsafe.
Proof.
  induction unsafe as [|u s IH]; [reflexivity|].
  change (u :: s) with ([u] ++ s).
  rewrite escapeXml_app, escapeXml_unit, IH. reflexivity.
Qed.

(** X1. The five successive replacements of [escapeXml] amount to one
    pass that escapes each code unit on its own: the ampersands of the
    entities written by a pass are not escaped again by a later pass,
    and the escape of a text is the escapes of its parts put together. *)
Theorem escapeXml_one_pass (unsafe rest : jsstring) :
  escapeXml unsafe = flat_map escapeUnit unsafe
  /\ escapeXml (unsafe ++ rest) = escapeXml unsafe ++ escapeXml rest.
Proof.
  split; [apply escapeXml_flat_map | apply escapeXml_app].
Qed.

Lemma escapeUnit_no_markup (u : N) :
  Forall (fun v => isMarkup v = false) (escapeUnit u).
Proof.
  unfold escapeUnit.
  destruct (N.eqb_spec u 38); [by repeat constructor|].
  destruct (N.eqb_spec u 60); [by repeat constructor|].
  destruct (N.eqb_spec u 62); [by repeat constructor|].
  destruct (N.eqb_spec u 34); [by repeat constructor|].
  destruct (N.eqb_spec u 39); [by repeat constructor|].
  constructor; [|constructor]. unfold isMarkup.
  by rewrite !(proj2 (N.eqb_neq _ _)).
Qed.

Lemma escapeXml_markup_free (unsafe : jsstring) :
  Forall (fun v => isMarkup v = false) (escapeXml unsafe).
Proof.
  rewrite escapeXml_flat_map.
  induction unsafe as [|u s IH]; [constructor|].
  cbn [flat_map]. apply Forall_app. split; [apply escapeUnit_no_markup | exact IH].
Qed.

(** X2. Escaped text holds no angle bracket and no quote, whatever the
    text was. *)
Theorem escapeXml_no_markup (unsafe : jsstring) (u : N) :
  In u (escapeXml unsafe) -> u <> 60 /\ u <> 62 /\ u <> 34 /\ u <> 39.
Proof.
  intros Hin.
  pose proof (proj1 (Forall_forall _ _) (escapeXml_markup_free unsafe) u) as H.
  rewrite list_elem_of_In in H. specialize (H Hin).
  unfold isMarkup in H.
  repeat (apply orb_false_iff in H as [H ?]).
  repeat split; by apply N.eqb_neq.
Qed.

Lemma escapeXml_no_markup_witness :
  38 <> 60 /\ 38 <> 62 /\ 38 <> 34 /\ 38 <> 39.
Proof.
  apply (escapeXml_no_markup (lit "<b>") 38).
  vm_compute. tauto.
Defined.

Lemma escapeUnit_cases (u : N) :
  (escapeUnit u = [u] /\ u <> 38 /\ isMarkup u = false)
  \/ (u = 38 /\ escapeUnit u = lit "&amp;")
  \/ (u = 60 /\ escapeUnit u = lit "&lt;")
  \/ (u = 62 /\ escapeUnit u = lit "&gt;")
  \/ (u = 34 /\ escapeUnit u = lit "&quot;")
  \/ (u = 39 /\ escapeUnit u = lit "&#039;").
Proof.
  unfold escapeUnit, isMarkup.
  destruct (N.eqb_spec u 38) as [->|?]; [by right; left|].
  destruct (N.eqb_spec u 60) as [->|?]; [by right; right; left|].
  destruct (N.eqb_spec u 62) as [->|?]; [by right; right; right; left|].
  destruct (N.eqb_spec u 34) as [->|?]; [by right; right; right; right; left|].
  destruct (N.eqb_spec u 39) as [->|?]; [by right; right; right; right; right|].
  by left.
Qed.

(** No escape of a code unit is the beginning of the escape of another
    one. *)
Lemma escapeUnit_prefix_free (u v : N) (r1 r2 : jsstring) :
  escapeUnit u ++ r1 = escapeUnit v ++ r2 -> u = v /\ r1 = r2.
Proof.
  destruct (escapeUnit_cases u) as [(-> & Hu & Hmu) | Hu];
    destruct (escapeUnit_cases v) as [(-> & Hv & Hmv) | Hv].
  - intros H. by simplify_eq/=.
  - destruct Hv as [[-> ->] | [[-> ->] | [[-> ->] | [[-> ->] | [-> ->]]]]];
      intros H; vm_compute in H; simplify_eq/=.
  - destruct Hu as [[-> ->] | [[-> ->] | [[-> ->] | [[-> ->] | [-> ->]]]]];
      intros H; vm_compute in H; simplify_eq/=.
  - destruct Hu as [[-> ->] | [[-> ->] | [[-> ->] | [[-> ->] | [-> ->]]]]];
      destruct Hv as [[-> ->] | [[-> ->] | [[-> ->] | [[-> ->] | [-> ->]]]]];
      intros H; vm_compute in H; by simplify_eq/=.
Qed.

Lemma escapeUnit_not_nil (u : N) : escapeUnit u <> [].
Proof.
  destruct (escapeUnit_cases u)
    as [(-> & _) | [[_ ->] | [[_ ->] | [[_ ->] | [[_ ->] | [_ ->]]]]]]; done.
Qed.

Lemma escapeXml_eq_inv (a b : jsstring) :
  escapeXml a = escapeXml b -> a = b.
Proof.
  rewrite !escapeXml_flat_map. revert b.
  induction a as [|u a IH]; intros [|v b]; cbn [flat_map]; intros H.
  - reflexivity.
  - symmetry in H. apply app_eq_nil in H as [H _]. by apply escapeUnit_not_nil in H.
  - apply app_eq_nil in H as [H _]. by apply escapeUnit_not_nil in H.
  - apply escapeUnit_prefix_free in H as [-> H]. f_equal. by apply IH.
Qed.

(** X3. Escaping loses nothing: two different texts have different
    escapes. *)
Theorem escapeXml_injective (a b : jsstring) :
  a <> b -> escapeXml a <> escapeXml b.
Proof.
  intros Hne H. apply Hne. by apply escapeXml_eq_inv.
Qed.

Lemma escapeXml_injective_witness :
  escapeXml (lit "<") <> escapeXml (lit "&lt;").
Proof.
  apply (escapeXml_injective (lit "<") (lit "&lt;")).
  vm_compute. discriminate.
Defined.

Lemma escapeXml_length (unsafe : jsstring) :
  (length unsafe <= length (escapeXml unsafe))%nat.
Proof.
  rewrite escapeXml_flat_map.
  induction unsafe as [|u s IH]; cbn [flat_map length]; [lia|].
  rewrite length_app.
  assert (1 <= length (escapeUnit u))%nat; [|lia].
  destruct (escapeUnit_cases u)
    as [(-> & _) | [[_ ->] | [[_ ->] | [[_ ->] | [[_ ->] | [_ ->]]]]]];
    vm_compute; lia.
Qed.

(** X4. [escapeXml] leaves a text as it is exactly when the text holds
    no ampersand, angle bracket or quote. *)
Theorem escapeXml_fixes_plain_text (unsafe : jsstring) :
  escapeXml unsafe = unsafe
  <-> Forall (fun u => u <> 38 /\ isMarkup u = false) unsafe.
Proof.
  split.
  - induction unsafe as [|u s IH]; intros H; [constructor|].
    change (u :: s) with ([u] ++ s) in H at 1.
    rewrite escapeXml_app, escapeXml_unit in H.
    destruct (escapeUnit_cases u) as [(Hu & Hne & Hm) | Hu].
    + rewrite Hu in H. injection H as H. constructor; [done|]. by apply IH.
    + exfalso.
      pose proof (escapeXml_length s) as Hlen.
      assert (2 <= length (escapeUnit u))%nat as H2.
      { destruct Hu as [[_ ->] | [[_ ->] | [[_ ->] | [[_ ->] | [_ ->]]]]];
          vm_compute; lia. }
      apply (f_equal length) in H. rewrite length_app in H.
      cbn [length] in H. lia.
  - induction 1 as [|u s [Hne Hm] _ IH]; [reflexivity|].
    change (u :: s) with ([u] ++ s) at 1.
    rewrite escapeXml_app, escapeXml_unit, IH.
    destruct (escapeUnit_cases u)
      as [(-> & _) | [[-> _] | [[-> _] | [[-> _] | [[-> _] | [-> _]]]]]]; done.
Qed.

Lemma escapeXml_fixes_plain_text_witness :
  escapeXml (lit "Хорошего дня!") = lit "Хорошего дня!".
Proof.
  apply (proj2 (escapeXml_fixes_plain_text (lit "Хорошего дня!"))).
  vm_compute. repeat constructor; discriminate.
Defined.

Lemma clash_startsWith (p t rest : jsstring) :
  clash p t = true -> startsWith p (t ++ rest) = false.
Proof.
  revert t. induction p as [|a p IH]; intros [|b t]; cbn; try done.
  intros H. apply orb_true_iff in H as [H | H].
  - apply negb_true_iff in H. by rewrite H.
  - rewrite (IH t H). apply andb_false_r.
Qed.

(** A piece of text from no position of which the pattern can start
    does not matter to the search. *)
Lemma includes_skip (p x rest : jsstring) :
  clashes p x = true -> includes (x ++ rest) p = includes rest p.
Proof.
  induction x as [|b x IH]; [done|].
  cbn [clashes]. intros H. apply andb_true_iff in H as [Hc Hx].
  cbn [app includes].
  change (b :: x ++ rest) with ((b :: x) ++ rest).
  by rewrite (clash_startsWith p (b :: x) rest Hc), IH.
Qed.

Lemma clashes_other_head (c : N) (p e : jsstring) :
  Forall (fun u => u <> c) e -> clashes (c :: p) e = true.
Proof.
  induction 1 as [|u e Hu _ IH]; [done|].
  cbn. rewrite IH. apply N.eqb_neq in Hu.
  rewrite N.eqb_sym in Hu. by rewrite Hu.
Qed.

Lemma startsWith_app (p x rest : jsstring) :
  startsWith p x = true -> startsWith p (x ++ rest) = true.
Proof.
  revert x. induction p as [|a p IH]; intros [|b x]; cbn; try done.
  intros H. apply andb_true_iff in H as [-> H]. by rewrite IH.
Qed.

Lemma includes_app_l (p x rest : jsstring) :
  includes x p = true -> includes (x ++ rest) p = true.
Proof.
  induction x as [|b x IH]; cbn [includes app]; intros H.
  - apply orb_true_iff in H as [H | H]; [|done].
    destruct p; [|done]. by destruct rest.
  - apply orb_true_iff in H as [H | H].
    + change (b :: x ++ rest) with ((b :: x) ++ rest).
      by rewrite (startsWith_app p (b :: x) rest H).
    + rewrite (IH H). apply orb_true_r.
Qed.

Lemma escaped_has_no_lt (unsafe : jsstring) :
  Forall (fun u => u <> 60) (escapeXml unsafe).
Proof.
  eapply Forall_impl; [apply escapeXml_markup_free|].
  intros u Hu ->. done.
Qed.

(** The two shapes of the document. *)
Lemma twimlResponse_say (d : Directive) :
  truthy (message d) = true ->
  twimlResponse d
  = sayHead ++ escapeXml (message d)
    ++ (lit "</Say>" ++ verbOf d ++ lit "</Response>").
Proof.
  intros H. unfold twimlResponse, verbOf, sayHead. rewrite H.
  destruct (hangup d), (gatherNext d); by rewrite <- ?app_assoc.
Qed.

Lemma twimlResponse_silent (d : Directive) :
  truthy (message d) = false ->
  twimlResponse d
  = (lit "<?xml version=" ++ dq ++ lit "1.0" ++ dq ++ lit " encoding=" ++ dq
     ++ lit "UTF-8" ++ dq ++ lit "?>") ++ lit "<Response>"
    ++ verbOf d ++ lit "</Response>".
Proof.
  intros H. unfold twimlResponse, verbOf. rewrite H.
  destruct (hangup d), (gatherNext d); by rewrite <- ?app_assoc, ?app_nil_l.
Qed.

(** What the search for an element finds in a document: nothing in the
    head, nothing in the escaped text, hence what the tail holds. *)
Lemma includes_twiml_say (d : Directive) (p : jsstring) :
  truthy (message d) = true ->
  clashes (60 :: p) sayHead = true ->
  includes (twimlResponse d) (60 :: p)
  = includes (lit "</Say>" ++ verbOf d ++ lit "</Response>") (60 :: p).
Proof.
  intros Hm Hp. rewrite twimlResponse_say by done.
  rewrite includes_skip by done.
  rewrite includes_skip; [done|].
  apply clashes_other_head, escaped_has_no_lt.
Qed.

Lemma twiml_verbs_found (d : Directive) :
  includes (twimlResponse d) (lit "<Hangup/>") = hangup d
  /\ includes (twimlResponse d) (lit "<Gather ") = negb (hangup d) && gatherNext d.
Proof.
  destruct (truthy (message d)) eqn:Hm.
  - split.
    + change (lit "<Hangup/>") with (60 :: lit "Hangup/>").
      rewrite includes_twiml_say by (done || (vm_compute; reflexivity)).
      unfold verbOf. destruct (hangup d), (gatherNext d); vm_compute; reflexivity.
    + change (lit "<Gather ") with (60 :: lit "Gather ").
      rewrite includes_twiml_say by (done || (vm_compute; reflexivity)).
      unfold verbOf. destruct (hangup d), (gatherNext d); vm_compute; reflexivity.
  - rewrite twimlResponse_silent by done. unfold verbOf.
    destruct (hangup d), (gatherNext d); vm_compute; split; reflexivity.
Qed.

(** X5. Whatever the text to speak, the document holds a [Hangup]
    element exactly when [hangup] is set and a [Gather] element exactly
    when [hangup] is not set and [gatherNext] is: [hangup] wins, and the
    spoken text cannot add or hide either element. *)
Theorem twiml_verbs (d : Directive) :
  includes (twimlResponse d) (lit "<Hangup/>") = hangup d
  /\ includes (twimlResponse d) (lit "<Gather ") = negb (hangup d) && gatherNext d.
Proof. apply twiml_verbs_found. Qed.

Lemma twiml_say_found (d : Directive) :
  includes (twimlResponse d) (lit "<Say ") = truthy (message d).
Proof.
  destruct (truthy (message d)) eqn:Hm.
  - rewrite twimlResponse_say by done.
    apply includes_app_l. vm_compute. reflexivity.
  - rewrite twimlResponse_silent by done. unfold verbOf.
    destruct (hangup d), (gatherNext d); vm_compute; reflexivity.
Qed.

(** X6. The document holds a [Say] element exactly when the text to
    speak is not empty, and then the text appears escaped, so that it
    brings no angle bracket or quote of its own into the document. *)
Theorem twiml_say (d : Directive) :
  includes (twimlResponse d) (lit "<Say ") = truthy (message d)
  /\ (truthy (message d) = true ->
      exists tail,
        twimlResponse d = sayHead ++ escapeXml (message d) ++ lit "</Say>" ++ tail
        /\ Forall (fun u => isMarkup u = false) (escapeXml (message d))).
Proof.
  split; [apply twiml_say_found|].
  intros Hm. exists (verbOf d ++ lit "</Response>").
  split; [|apply escapeXml_markup_free].
  by rewrite twimlResponse_say.
Qed.

Lemma twiml_say_witness :
  exists tail,
    twimlResponse {| message := lit "<Hangup/>"; gatherNext := true; hangup := false |}
    = sayHead ++ escapeXml (lit "<Hangup/>") ++ lit "</Say>" ++ tail
    /\ Forall (fun u => isMarkup u = false) (escapeXml (lit "<Hangup/>")).
Proof.
  apply (proj2 (twiml_say {| message := lit "<Hangup/>"; gatherNext := true;
                             hangup := false |})).
  reflexivity.
Defined.

End TwimlSpec.

(** ** More on the reply strategy *)

Module ReplySpec.
Import Agent AgentSpec.

Lemma fallback_text_truthy (userText : jsstring) :
  truthy (text (ruleBasedFallback userText)) = true.
Proof.
  unfold ruleBasedFallback.
  destruct (_ || _ || _); [reflexivity|].
  destruct (_ || _ || _); reflexivity.
Qed.

Lemma reply_truthy (openaiClient : option Client)
    (callHistory : list Turn) (latestUserText : jsstring) (w : World) :
  exists reply w',
    getAgentReply openaiClient callHistory latestUserText w = (Ok reply, w')
    /\ truthy (text reply) = true.
Proof.
  destruct openaiClient as [client|].
  - cbn [getAgentReply]. unfold tryCatch, mbind, M_bind, bind, create.
    destruct (client _ _) as [completion|err].
    + eexists _, _. split; [reflexivity|]. cbn [text].
      destruct (optOr (firstContent completion) []); reflexivity.
    + eexists _, _. split; [reflexivity|]. apply fallback_text_truthy.
  - eexists _, _. split; [reflexivity|]. apply fallback_text_truthy.
Qed.

(** X7. Whatever the completion service does (no client, a rejection,
    a completion without text, a completion of white space only),
    [getAgentReply] returns a reply whose text is not empty. *)
Theorem reply_text_is_never_empty (openaiClient : option Client)
    (callHistory : list Turn) (latestUserText : jsstring) (w : World) :
  exists reply w',
    getAgentReply openaiClient callHistory latestUserText w = (Ok reply, w')
    /\ truthy (text reply) = true.
Proof. apply reply_truthy. Qed.

(** The fallback rules hang up exactly when the lower-cased input holds
    one of the three decline phrases. *)
Lemma fallback_hangs_up_exactly_on_decline (userText : jsstring) :
  shouldHangup (ruleBasedFallback userText)
  = includes (toLowerCase userText) (lit "не интересно")
    || includes (toLowerCase userText) (lit "неинтересно")
    || includes (toLowerCase userText) (lit "не надо").
Proof.
  unfold ruleBasedFallback. rewrite strOr_nil.
  destruct (_ || _ || _); [reflexivity|].
  destruct (_ || _ || _); reflexivity.
Qed.

Lemma between_true (lo hi u : N) : between lo hi u = true <-> lo <= u <= hi.
Proof.
  unfold between. rewrite andb_true_iff, !N.leb_le. done.
Qed.

Lemma between_false (lo hi u : N) : between lo hi u = false <-> u < lo \/ hi < u.
Proof.
  unfold between. rewrite andb_false_iff, !N.leb_gt. done.
Qed.

(** A code unit outside the ranges of capitals is left as it is. *)
Lemma lowerUnit_small (u : N) :
  (u < 65 \/ 90 < u) -> (u < 192 \/ 222 < u \/ u = 215) ->
  (u < 1024 \/ 1071 < u) -> lowerUnit u = u.
Proof.
  intros H1 H2 H3. unfold lowerUnit.
  rewrite (proj2 (between_false 65 90 u)) by done.
  assert (between 192 222 u && negb (N.eqb u 215) = false) as ->.
  { destruct H2 as [H | [H | ->]]; [| |done];
      rewrite (proj2 (between_false 192 222 u)); auto. }
  rewrite (proj2 (between_false 1040 1071 u)) by lia.
  by rewrite (proj2 (between_false 1024 1039 u)) by lia.
Qed.

Lemma lowerUnit_idempotent (u : N) : lowerUnit (lowerUnit u) = lowerUnit u.
Proof.
  unfold lowerUnit at 2 3.
  destruct (between 65 90 u) eqn:E1.
  { apply between_true in E1. apply lowerUnit_small; lia. }
  destruct (between 192 222 u && negb (N.eqb u 215)) eqn:E2.
  { apply andb_true_iff in E2 as [E2 E2'].
    apply between_true in E2. apply negb_true_iff, N.eqb_neq in E2'.
    apply lowerUnit_small; lia. }
  destruct (between 1040 1071 u) eqn:E3.
  { apply between_true in E3. apply lowerUnit_small; lia. }
  destruct (between 1024 1039 u) eqn:E4.
  { apply between_true in E4. apply lowerUnit_small; lia. }
  apply between_false in E1, E3, E4.
  apply lowerUnit_small; [lia | | lia].
  apply andb_false_iff in E2 as [E2 | E2].
  - apply between_false in E2. lia.
  - apply negb_false_iff, N.eqb_eq in E2. lia.
Qed.

Lemma toLowerCase_idempotent (s : jsstring) :
  toLowerCase (toLowerCase s) = toLowerCase s.
Proof.
  unfold toLowerCase. rewrite List.map_map.
  apply List.map_ext, lowerUnit_idempotent.
Qed.

(** X8. The fallback rules do not tell capitals from small letters: an
    input and its lower-cased form get the same reply. *)
Theorem fallback_ignores_case (userText : jsstring) :
  ruleBasedFallback (toLowerCase userText) = ruleBasedFallback userText.
Proof.
  unfold ruleBasedFallback. by rewrite !strOr_nil, toLowerCase_idempotent.
Qed.

End ReplySpec.

(** ** Trimming *)

Section TrimFacts.

Lemma trimStart_suffix (s : jsstring) : exists pre, s = pre ++ trimStart s.
Proof.
  induction s as [|u s [pre IH]]; [by exists []|].
  cbn [trimStart]. destruct (isWhite u).
  - exists (u :: pre). cbn. by rewrite <- IH.
  - by exists [].
Qed.

Lemma trimStart_head (s : jsstring) (u : N) :
  head (trimStart s) = Some u -> isWhite u = false.
Proof.
  induction s as [|v s IH]; [done|].
  cbn [trimStart]. destruct (isWhite v) eqn:E; [done|].
  cbn. by intros [= <-].
Qed.

(** A trimmed string neither begins nor ends with white space. *)
Lemma trim_edges (s : jsstring) (u : N) :
  head (trim s) = Some u \/ last (trim s) = Some u -> isWhite u = false.
Proof.
  unfold trim. set (t := trimStart s). set (r := trimStart (rev t)).
  assert (exists pre, t = rev r ++ pre) as [pre Ht].
  { destruct (trimStart_suffix (rev t)) as [pre Hpre]. fold r in Hpre.
    exists (rev pre). rewrite <- rev_app_distr, <- Hpre.
    by rewrite rev_involutive. }
  intros [H | H].
  - apply (trimStart_head s). fold t. rewrite Ht.
    destruct (rev r); [done|]. exact H.
  - apply (trimStart_head (rev t)). fold r.
    destruct r as [|v r']; [done|].
    cbn [rev] in H. rewrite last_snoc in H. exact H.
Qed.

End TrimFacts.

(** ** Sessions *)

Module SessionSpec.
Import Agent Twiml AgentSpec ServerSpec ReplySpec TwimlSpec.

Lemma firstContent_trimmed (completion : Completion) (x : jsstring) :
  firstContent completion = Some x -> exists c, x = trim c.
Proof.
  unfold firstContent.
  destruct (choices completion) as [[|choice ?]|]; try done.
  destruct (choice_message choice) as [m|]; try done.
  destruct (message_content m) as [c|]; try done.
  intros [= <-]. by exists c.
Qed.

Lemma fallback_text_edges (userText : jsstring) (u : N) :
  head (text (ruleBasedFallback userText)) = Some u
  \/ last (text (ruleBasedFallback userText)) = Some u ->
  isWhite u = false.
Proof.
  unfold ruleBasedFallback.
  destruct (_ || _ || _);
    [|destruct (_ || _ || _)];
    (intros [H | H]; vm_compute in H; injection H as <-; reflexivity).
Qed.

(** X9. The text of a reply neither begins nor ends with white space:
    the fixed texts have none there, and the text of a completion is
    trimmed. *)
Theorem reply_text_has_clean_edges (openaiClient : option Client)
    (callHistory : list Turn) (latestUserText : jsstring) (w w' : World)
    (reply : Reply) (u : N) :
  getAgentReply openaiClient callHistory latestUserText w = (Ok reply, w') ->
  head (text reply) = Some u \/ last (text reply) = Some u ->
  isWhite u = false.
Proof.
  destruct openaiClient as [client|].
  - cbn [getAgentReply]. unfold tryCatch, mbind, M_bind, bind, create.
    destruct (client _ _) as [completion|err].
    + intros [= <- _]. cbn [text].
      destruct (firstContent completion) as [x|] eqn:Hx.
      * apply firstContent_trimmed in Hx as [c ->]. cbn [optOr].
        rewrite strOr_nil. unfold strOr.
        destruct (truthy (trim c)); [apply trim_edges|].
        intros [H | H]; vm_compute in H; injection H as <-; reflexivity.
      * intros [H | H]; vm_compute in H; injection H as <-; reflexivity.
    + intros [= <- _]. apply fallback_text_edges.
  - intros [= <- _]. apply fallback_text_edges.
Qed.

Lemma reply_text_has_clean_edges_witness :
  isWhite 1044 = false.
Proof.
  apply (reply_text_has_clean_edges
           (Some (fun _ _ => Resolves {| choices := Some [{| choice_message :=
              Some {| message_content := Some (lit "  До свидания  ") |} |}] |}))
           [seed] (lit "алло") emptyWorld
           {| callHistories := ∅;
              requests := [messagesOf [seed] (lit "алло")];
              console := [] |}
           {| text := lit "До свидания"; shouldHangup := true |} 1044).
  - vm_compute. reflexivity.
  - left. vm_compute. reflexivity.
Defined.

(** X10. Deliveries for several calls handled in any order do not mix:
    after a run of [/gather] deliveries, the history of a call is the
    one it had before, followed by the turns of the deliveries made for
    that call, in their order; deliveries for other calls leave no trace
    in it. *)
Theorem histories_do_not_mix (openaiClient : option Client) (sid : jsstring)
    (reqs : list (Body * N)) (w : World) (h : list Turn) :
  callHistories w !! sid = Some h ->
  exists ds w',
    gatherAll openaiClient reqs w = (Ok ds, w')
    /\ length ds = length reqs
    /\ callHistories w' !! sid = Some (h ++ transcriptOf sid reqs ds).
Proof.
  revert w h. induction reqs as [|[body now] reqs IH]; intros w h Hw.
  - exists [], w. cbn. by rewrite app_nil_r.
  - destruct (gather_ok openaiClient body now w) as (d & w1 & Hg & Hh & _ & Hother).
    assert (callHistories w1 !! sid
            = Some (h ++ (if decide (callSidOf body now = sid)
                          then [userTurn (speechOf body); assistantTurn (message d)]
                          else []))) as Hw1.
    { destruct (decide (callSidOf body now = sid)) as [Heq | Hne].
      - rewrite Heq, Hw in Hh. exact Hh.
      - rewrite Hother by done. by rewrite app_nil_r. }
    destruct (IH w1 _ Hw1) as (ds & w2 & Hall & Hlen & Hh2).
    exists (d :: ds), w2. cbn [gatherAll].
    unfold mbind, M_bind, bind in *. rewrite Hg, Hall.
    split; [done|]. split; [cbn; by rewrite Hlen|].
    rewrite Hh2. cbn [transcriptOf]. by rewrite <- app_assoc.
Qed.

Lemma histories_do_not_mix_witness :
  exists ds w',
    gatherAll None [(delivery (lit "CA2") (lit "почта"), 1);
                    (delivery (lit "CA1") (lit "не надо"), 2)]
      (snd (voice (delivery (lit "CA1") []) 0 emptyWorld))
    = (Ok ds, w')
    /\ length ds = 2%nat
    /\ callHistories w' !! lit "CA1"
       = Some ([seed] ++ transcriptOf (lit "CA1")
                           [(delivery (lit "CA2") (lit "почта"), 1);
                            (delivery (lit "CA1") (lit "не надо"), 2)] ds).
Proof.
  apply (histories_do_not_mix None (lit "CA1")
           [(delivery (lit "CA2") (lit "почта"), 1);
            (delivery (lit "CA1") (lit "не надо"), 2)]
           (snd (voice (delivery (lit "CA1") []) 0 emptyWorld)) [seed]).
  reflexivity.
Defined.

Lemma digits_inj (d1 d2 : Decimal.uint) : digits d1 = digits d2 -> d1 = d2.
Proof.
  revert d2. induction d1 as [|d1 IH|d1 IH|d1 IH|d1 IH|d1 IH|d1 IH|d1 IH|d1 IH|d1 IH|d1 IH];
    intros [|d2|d2|d2|d2|d2|d2|d2|d2|d2|d2]; cbn [digits]; intros H;
    try discriminate; try reflexivity;
    injection H as H; f_equal; by apply IH.
Qed.

Lemma decimal_inj (n1 n2 : N) : decimal n1 = decimal n2 -> n1 = n2.
Proof.
  unfold decimal. intros H.
  by apply DecimalN.Unsigned.to_uint_inj, digits_inj.
Qed.

(** X11. Deliveries that carry no call id (none, or an empty one) get
    the id [local-] followed by the clock value: at different clock
    values they never share an id, hence never a history. *)
Theorem local_ids_differ (body1 body2 : Body) (now1 now2 : N) :
  truthy (default [] (CallSid body1)) = false ->
  truthy (default [] (CallSid body2)) = false ->
  now1 <> now2 ->
  callSidOf body1 now1 <> callSidOf body2 now2.
Proof.
  intros H1 H2 Hne Heq. apply Hne.
  unfold callSidOf, optOr, strOr in Heq.
  destruct (CallSid body1) as [c1|], (CallSid body2) as [c2|];
    cbn [default from_option id] in H1, H2;
    rewrite ?H1, ?H2 in Heq;
    apply app_inv_head in Heq; by apply decimal_inj.
Qed.

Lemma local_ids_differ_witness :
  callSidOf {| CallSid := None; SpeechResult := Some (lit "алло");
               speechResult := None; CallStatus := None |} 1730000000000
  <> callSidOf {| CallSid := Some []; SpeechResult := None;
                  speechResult := None; CallStatus := None |} 1730000000001.
Proof.
  apply (local_ids_differ
           {| CallSid := None; SpeechResult := Some (lit "алло");
              speechResult := None; CallStatus := None |}
           {| CallSid := Some []; SpeechResult := None;
              speechResult := None; CallStatus := None |}
           1730000000000 1730000000001).
  - reflexivity.
  - reflexivity.
  - discriminate.
Defined.

End SessionSpec.

(** ** What the handlers answer *)

Module ResponseSpec.
Import Agent Twiml AgentSpec ServerSpec ReplySpec TwimlSpec.

Lemma gather_speaks (openaiClient : option Client) (body : Body) (now : N) (w : World) :
  exists d w',
    gather openaiClient body now w = (Ok d, w')
    /\ truthy (message d) = true
    /\ gatherNext d = negb (hangup d).
Proof.
  unfold gather, mbind, M_bind, bind, gets, modify.
  set (history := default [] _ ++ [_]).
  set (w1 := match callHistories w !! callSidOf body now with
             | Some _ => _
             | None => w
             end).
  destruct (reply_truthy openaiClient history (speechOf body) w1)
    as (reply & wr & Hr & Ht).
  rewrite Hr. eexists _, _. split; [reflexivity|]. cbn [message gatherNext hangup].
  done.
Qed.

(** X12. Every answer to [/gather] is an XML document that speaks (it
    holds a [Say] element, the reply being never empty) and then either
    listens again or hangs up, never both and never neither; the answer
    to [/voice] speaks and listens. *)
Theorem responses_speak_then_listen_or_hang_up (openaiClient : option Client)
    (body : Body) (now : N) (w : World) :
  (exists resp w',
     postGather openaiClient body now w = (Ok resp, w')
     /\ contentType resp = lit "text/xml"
     /\ includes (payload resp) (lit "<Say ") = true
     /\ includes (payload resp) (lit "<Hangup/>")
        = negb (includes (payload resp) (lit "<Gather ")))
  /\ (exists resp w',
        postVoice body now w = (Ok resp, w')
        /\ contentType resp = lit "text/xml"
        /\ includes (payload resp) (lit "<Say ") = true
        /\ includes (payload resp) (lit "<Gather ") = true
        /\ includes (payload resp) (lit "<Hangup/>") = false).
Proof.
  split.
  - unfold postGather, mbind, M_bind, bind.
    destruct (gather_speaks openaiClient body now w) as (d & w' & Hg & Hm & Hn).
    rewrite Hg. eexists _, _. split; [reflexivity|]. cbn [contentType payload].
    split; [reflexivity|].
    destruct (twiml_verbs_found d) as [Hh Hga]. pose proof (twiml_say_found d) as Hs.
    rewrite Hs, Hh, Hga, Hn, Hm. split; [reflexivity|]. by destruct (hangup d).
  - unfold postVoice, mbind, M_bind, bind. rewrite voice_ok.
    eexists _, _. split; [reflexivity|]. cbn [contentType payload].
    split; [reflexivity|].
    set (d := {| message := intro; gatherNext := true; hangup := false |}).
    destruct (twiml_verbs_found d) as [Hh Hga]. pose proof (twiml_say_found d) as Hs.
    rewrite Hs, Hh, Hga. repeat split; reflexivity.
Qed.

End ResponseSpec.

(** ** More on the dialer *)

Module DialerMore.
Import Num64 Dialer DialerRuns Num64Facts IntervalFacts DialerSpec.

Lemma interval_range (rate : number) :
  rate <> NaN ->
  exists k : Z, intervalMs rate = Finite (inject_Z k) /\ (5000 <= k <= 60000)%Z.
Proof.
  intros H. destruct rate as [|[|]|q]; [done| | |apply interval_in_range].
  - exists 60000%Z. split; [vm_compute; reflexivity | lia].
  - exists 5000%Z. split; [vm_compute; reflexivity | lia].
Qed.

(** X13. For every rate that is a number (zero, the negative and the
    infinite ones included), the wait between two calls is a whole
    number of milliseconds, at least 5000 and at most 60000; for a rate
    that is not a number the interval is not a number either. *)
Theorem interval_is_bounded (rate : number) :
  match rate with
  | NaN => intervalMs rate = NaN
  | _ => exists k : Z, intervalMs rate = Finite (inject_Z k) /\ (5000 <= k <= 60000)%Z
  end.
Proof.
  destruct rate as [|b|q]; [reflexivity | |]; by apply interval_range.
Qed.

(** X14. A higher rate never gives a longer wait, the quotient being
    rounded to binary64 as the code computes it. *)
Theorem interval_is_antitone (rate1 rate2 : number) :
  numLeb rate1 rate2 = true ->
  exists k1 k2 : Z,
    intervalMs rate1 = Finite (inject_Z k1)
    /\ intervalMs rate2 = Finite (inject_Z k2)
    /\ (k2 <= k1)%Z.
Proof.
  intros H.
  destruct rate1 as [|[|]|q1]; [done| | |].
  - destruct rate2 as [|b|q2]; [done| |];
      (edestruct interval_range as (k2 & Hk2 & Hr2); [|
        exists 60000%Z, k2; split; [vm_compute; reflexivity|]; split; [exact Hk2 | lia]]);
      done.
  - destruct rate2 as [|[|]|q2]; try done.
    exists 5000%Z, 5000%Z. repeat split; (vm_compute; reflexivity) || lia.
  - destruct rate2 as [|[|]|q2]; try done.
    + destruct (interval_range (Finite q1)) as (k1 & Hk1 & Hr1); [done|].
      exists k1, 5000%Z. split; [done|]. split; [vm_compute; reflexivity | lia].
    + cbn [numLeb] in H. apply Qle_bool_iff in H.
      eexists _, _. rewrite !intervalMs_finite.
      split; [reflexivity|]. split; [reflexivity|].
      by apply interval_antitone_finite.
Qed.

Lemma interval_is_antitone_witness :
  exists k1 k2 : Z,
    intervalMs (Finite 7) = Finite (inject_Z k1)
    /\ intervalMs (Finite 10) = Finite (inject_Z k2)
    /\ (k2 <= k1)%Z.
Proof.
  apply (interval_is_antitone (Finite 7) (Finite 10)). reflexivity.
Defined.

(** The loop over a first part of the list whose contacts all carry a
    phone: the passes made, then the loop over what is left. *)
Lemma dialLoop_app (argv : Argv) (client : Twilio) (interval : number) (pre : list Row) :
  Forall (fun c => is_Some (phoneOf c)) pre ->
  forall (rest : list Row) (index : N) (tr : list Event),
    dialLoop argv client interval index (pre ++ rest) tr
    = dialLoop argv client interval (index + N.of_nat (length pre)) rest
        (tr ++ concat (imap (fun i c =>
                               [Request (requestFor argv c);
                                outcomeFor argv client (length (attempts tr) + i)
                                  (index + N.of_nat (S i)) c;
                                Sleep interval]) pre)).
Proof.
  induction 1 as [|c pre Hc _ IH]; intros rest index tr.
  - cbn [app length imap concat]. by rewrite N.add_0_r, app_nil_r.
  - cbn [app]. rewrite dialLoop_cons by done. rewrite IH.
    cbn [length imap concat]. f_equal; [lia|].
    rewrite <- app_assoc. f_equal.
    rewrite Nat.add_0_r.
    replace (index + N.of_nat 1) with (index + 1) by lia.
    cbn [app]. do 3 f_equal. apply (f_equal (@concat Event)).
    apply imap_ext. intros i x _. cbn.
    rewrite attempts_app, length_app.
    replace (length (attempts [Request (requestFor argv c);
                               outcomeFor argv client (length (attempts tr)) (index + 1) c;
                               Sleep interval])) with 1%nat.
    + do 3 f_equal; lia.
    + by destruct (outcomeFor_cases argv client (length (attempts tr)) (index + 1) c)
        as [[y ->] | [y ->]].
Qed.

Lemma dialAll_passes_from (argv : Argv) (client : Twilio) (contacts : list Row)
    (tr0 : list Event) :
  Forall (fun c => is_Some (phoneOf c)) contacts ->
  dialAll argv client contacts tr0
  = (Ok tt, tr0 ++ concat (imap (passOf argv client (length (attempts tr0))) contacts)).
Proof.
  intros Hall. unfold dialAll.
  rewrite <- (app_nil_r contacts) at 1.
  rewrite dialLoop_app by done. reflexivity.
Qed.

(** X15. On contacts that all carry a phone, [dialAll] does, contact by
    contact and in the order of the list, exactly this: one request, one
    line for its outcome, one wait of the interval; also after the last
    contact, and with nothing else in between. *)
Theorem dialAll_passes (argv : Argv) (client : Twilio) (contacts : list Row)
    (tr0 : list Event) :
  Forall (fun c => is_Some (phoneOf c)) contacts ->
  dialAll argv client contacts tr0
  = (Ok tt, tr0 ++ concat (imap (passOf argv client (length (attempts tr0))) contacts)).
Proof.
  intros Hall. unfold dialAll.
  rewrite <- (app_nil_r contacts) at 1.
  rewrite dialLoop_app by done. reflexivity.
Qed.

Lemma dialAll_passes_witness :
  dialAll argvDefault refusesSecond threeContacts []
  = (Ok tt, [] ++ concat (imap (passOf argvDefault refusesSecond (length (attempts [])))
                            threeContacts)).
Proof.
  apply (dialAll_passes argvDefault refusesSecond threeContacts []).
  repeat constructor; eexists; vm_compute; reflexivity.
Defined.

(** X16. For a rate that is a number, a run of [dialAll] over n
    contacts waits n times, each time the same whole number of
    milliseconds, which is at least 5000, however fast the telephony
    service answers. *)
Theorem batch_waits_at_least_five_seconds_per_contact (argv : Argv)
    (client : Twilio) (contacts : list Row) (tr0 : list Event) :
  Forall (fun c => is_Some (phoneOf c)) contacts ->
  rate argv <> NaN ->
  exists (tr : list Event) (k : Z),
    dialAll argv client contacts tr0 = (Ok tt, tr0 ++ tr)
    /\ (5000 <= k <= 60000)%Z
    /\ List.filter isSleep tr = replicate (length contacts) (Sleep (Finite (inject_Z k))).
Proof.
  intros Hall Hrate.
  destruct (interval_range (rate argv) Hrate) as (k & Hk & Hr).
  destruct (dialLoop_trace argv client (intervalMs (rate argv)) contacts Hall 0 tr0)
    as (tr & Hrun & _ & _ & Hsl).
  exists tr, k. split; [exact Hrun|]. split; [done|]. by rewrite Hsl, Hk.
Qed.

Lemma batch_waits_at_least_five_seconds_per_contact_witness :
  exists (tr : list Event) (k : Z),
    dialAll argvDefault refusesSecond threeContacts [] = (Ok tt, [] ++ tr)
    /\ (5000 <= k <= 60000)%Z
    /\ List.filter isSleep tr
       = replicate (length threeContacts) (Sleep (Finite (inject_Z k))).
Proof.
  apply (batch_waits_at_least_five_seconds_per_contact argvDefault refusesSecond
           threeContacts []).
  - repeat constructor; eexists; vm_compute; reflexivity.
  - discriminate.
Defined.

(** X17. A contact without a [phone] field stops [dialAll] with a
    [TypeError]: the contacts before it have had their passes, the
    contact itself and those after it get no request, no line and no
    wait. *)
Theorem dialAll_stops_at_missing_phone (argv : Argv) (client : Twilio)
    (pre post : list Row) (bad : Row) (tr0 : list Event) :
  Forall (fun c => is_Some (phoneOf c)) pre ->
  phoneOf bad = None ->
  dialAll argv client (pre ++ bad :: post) tr0
  = (Raised typeError,
     tr0 ++ concat (imap (passOf argv client (length (attempts tr0))) pre)).
Proof.
  intros Hall Hbad. unfold dialAll.
  rewrite dialLoop_app by done.
  cbn [dialLoop]. rewrite Hbad. reflexivity.
Qed.

Lemma dialAll_stops_at_missing_phone_witness :
  dialAll argvDefault refusesSecond
    ([contactOf (lit "+79000000001")] ++ unnamed (lit "Иван")
     :: [contactOf (lit "+79000000003")]) []
  = (Raised typeError,
     [] ++ concat (imap (passOf argvDefault refusesSecond (length (attempts [])))
                     [contactOf (lit "+79000000001")])).
Proof.
  apply (dialAll_stops_at_missing_phone argvDefault refusesSecond
           [contactOf (lit "+79000000001")] [contactOf (lit "+79000000003")]
           (unnamed (lit "Иван")) []).
  - repeat constructor; eexists; vm_compute; reflexivity.
  - vm_compute. reflexivity.
Defined.

Lemma main_after_reading (argv : Argv) (client : Twilio)
    (parseCsv : jsstring -> CsvStream) (tr0 : list Event) :
  failure (parseCsv (csv argv)) = None ->
  let contacts := List.filter hasPhone (rows (parseCsv (csv argv))) in
  main argv client parseCsv tr0
  = (Ok tt,
     tr0 ++
     if Nat.eqb (length contacts) 0
     then [ErrorLine (lit "В CSV нет записей с полем 'phone'"); Exit 1]
     else [Log (lit "Найдено контактов: " ++ decimal (N.of_nat (length contacts))
                ++ lit ". Запускаю обзвон...")]
          ++ concat (imap (passOf argv client (length (attempts tr0))) contacts)
          ++ [Log (lit "Готово")]).
Proof.
  intros Hfail contacts. unfold main, readContacts. rewrite Hfail.
  fold contacts.
  unfold mbind, M_bind, bind, mret, M_ret, ret, emit, modify.
  destruct (Nat.eqb (length contacts) 0) eqn:E.
  - by rewrite <- app_assoc.
  - set (found := Log _).
    rewrite (dialAll_passes_from argv client contacts (tr0 ++ [found])).
    + rewrite attempts_app.
      change (attempts [found]) with (@nil Params). rewrite app_nil_r.
      by rewrite <- !app_assoc.
    + apply filter_hasPhone.
Qed.

Lemma main_when_reading_fails (argv : Argv) (client : Twilio)
    (parseCsv : jsstring -> CsvStream) (tr0 : list Event) :
  match failure (parseCsv (csv argv)) with
  | Some (ParserFailed err) => main argv client parseCsv tr0 = (Raised err, tr0)
  | Some (FileUnreadable err) =>
      main argv client parseCsv tr0 = (Died, tr0 ++ [Uncaught err])
  | None => True
  end.
Proof.
  destruct (failure (parseCsv (csv argv))) as [[err|err]|] eqn:Hfail; [| |done];
    unfold main, readContacts; by rewrite Hfail.
Qed.


Lemma pass_has_no_exit (argv : Argv) (client : Twilio) (k i : nat) (c : Row) :
  Forall (fun e => e <> Exit 1) (passOf argv client k i c).
Proof.
  unfold passOf.
  destruct (outcomeFor_cases argv client (k + i) (N.of_nat (S i)) c)
    as [[x ->] | [x ->]]; by repeat constructor.
Qed.

Lemma passes_have_no_exit (argv : Argv) (client : Twilio) (k : nat)
    (contacts : list Row) :
  Forall (fun e => e <> Exit 1) (concat (imap (passOf argv client k) contacts)).
Proof.
  apply Forall_concat, Forall_forall. intros pass Hin.
  apply elem_of_lookup_imap in Hin as (i & c & -> & _).
  apply pass_has_no_exit.
Qed.

(** X19. How the program ends.  With a credential missing it prints the
    error line and exits with status 1.  When [twilio(...)] throws, or
    when the contact file cannot be read, the error is uncaught and the
    process ends on it, nothing else having been printed and no request
    sent.  When the parser reports an error, it prints that error and
    exits with status 1; with no row that carries a phone it prints the
    error line and exits with status 1.  Otherwise it never exits with
    status 1 and its last line is the closing one.  In no case does a
    rejection stay unhandled. *)
Theorem program_outcomes (accountSid authToken : option jsstring) (argv : Argv)
    (twilio : jsstring -> jsstring -> Constructed)
    (parseCsv : jsstring -> CsvStream) :
  exists (r : Exc unit) (tr : list Event),
    program accountSid authToken argv twilio parseCsv [] = (r, tr)
    /\ (forall err, r <> Raised err)
    /\ if missing accountSid || missing authToken
       then r = Ok tt
            /\ tr = [ErrorLine (lit "Требуются TWILIO_ACCOUNT_SID и TWILIO_AUTH_TOKEN в .env");
                     Exit 1]
       else match twilio (default [] accountSid) (default [] authToken) with
            | Thrown err => r = Died /\ tr = [Uncaught err]
            | Built client =>
                match failure (parseCsv (csv argv)) with
                | Some (FileUnreadable err) => r = Died /\ tr = [Uncaught err]
                | Some (ParserFailed err) =>
                    r = Ok tt /\ tr = [ErrorLine (err_text err); Exit 1]
                | None =>
                    r = Ok tt
                    /\ if Nat.eqb (length (List.filter hasPhone
                                             (rows (parseCsv (csv argv))))) 0
                       then tr = [ErrorLine (lit "В CSV нет записей с полем 'phone'");
                                  Exit 1]
                       else Forall (fun e => e <> Exit 1) tr
                            /\ last tr = Some (Log (lit "Готово"))
                end
            end.
Proof.
  unfold program.
  destruct (missing accountSid || missing authToken) eqn:Hcred.
  { eexists _, _. split; [reflexivity|]. split; [done|]. split; reflexivity. }
  destruct (twilio _ _) as [client|err].
  2: { eexists _, _. split; [reflexivity|]. split; [done|]. split; reflexivity. }
  unfold tryCatch.
  pose proof (main_when_reading_fails argv client parseCsv []) as Hmain.
  destruct (failure (parseCsv (csv argv))) as [[err|err]|] eqn:Hfail.
  - rewrite Hmain. eexists _, _. split; [reflexivity|]. split; [done|].
    split; reflexivity.
  - rewrite Hmain. eexists _, _. split; [reflexivity|]. split; [done|].
    split; reflexivity.
  - rewrite (main_after_reading argv client parseCsv [] Hfail). cbn [app].
    eexists _, _. split; [reflexivity|]. split; [done|]. split; [reflexivity|].
    destruct (Nat.eqb _ 0); [reflexivity|].
    split.
    + constructor; [done|]. apply Forall_app. split.
      * apply passes_have_no_exit.
      * by repeat constructor.
    + rewrite app_comm_cons, app_assoc. apply last_snoc.
Qed.

Lemma to_paramsFor (argv : Argv) (number : jsstring) : to (paramsFor argv number) = number.
Proof. unfold paramsFor. by destruct (truthy (status argv)). Qed.

(** X20. The number put into a request has no white space at its
    beginning or at its end, whatever surrounds the phone in the row. *)
Theorem dialled_number_is_trimmed (argv : Argv) (contact : Row) (u : N) :
  head (to (requestFor argv contact)) = Some u
  \/ last (to (requestFor argv contact)) = Some u ->
  isWhite u = false.
Proof.
  unfold requestFor. rewrite to_paramsFor. unfold toOf. apply trim_edges.
Qed.

Lemma dialled_number_is_trimmed_witness : isWhite 43 = false.
Proof.
  apply (dialled_number_is_trimmed argvDefault (contactOf (lit " +79000000002 ")) 43).
  left. vm_compute. reflexivity.
Defined.

End DialerMore.

(** ** A declined call, end to end *)

Module EndToEnd.
Import Agent Twiml AgentSpec ServerSpec TwimlSpec.

(** X21. Without a completion client, a [/gather] delivery whose speech
    holds a decline phrase is answered by a document that speaks the
    closing text and hangs up without listening again, whatever the call
    id and the state of the registry. *)
Theorem declined_call_is_hung_up (body : Body) (now : N) (w : World) :
  includes (speechOf body) (lit "не интересно") = true
  \/ includes (speechOf body) (lit "неинтересно") = true
  \/ includes (speechOf body) (lit "не надо") = true ->
  exists resp w',
    postGather None body now w = (Ok resp, w')
    /\ payload resp
       = twimlResponse {| message := text closing; gatherNext := false; hangup := true |}
    /\ includes (payload resp) (lit "<Hangup/>") = true
    /\ includes (payload resp) (lit "<Gather ") = false.
Proof.
  intros H.
  assert (ruleBasedFallback (speechOf body) = closing) as Hreply.
  { apply fallback_lowercased_decline.
    destruct H as [H | [H | H]]; [left | right; left | right; right];
      (apply includes_toLowerCase; [vm_compute; reflexivity | exact H]). }
  unfold postGather, gather, mbind, M_bind, bind, gets, modify.
  cbn [getAgentReply]. unfold mret, M_ret, ret. rewrite Hreply.
  eexists _, _. split; [reflexivity|].
  set (d := {| message := text closing; gatherNext := false; hangup := true |}).
  match goal with
  | |- context [payload ?r] => change (payload r) with (twimlResponse d)
  end.
  split; [reflexivity|].
  destruct (twiml_verbs_found d) as [-> ->]. split; reflexivity.
Qed.

Lemma declined_call_is_hung_up_witness :
  exists resp w',
    postGather None (delivery (lit "CA1") (lit "Спасибо, не надо")) 0 emptyWorld
    = (Ok resp, w')
    /\ payload resp
       = twimlResponse {| message := text closing; gatherNext := false; hangup := true |}
    /\ includes (payload resp) (lit "<Hangup/>") = true
    /\ includes (payload resp) (lit "<Gather ") = false.
Proof.
  apply (declined_call_is_hung_up (delivery (lit "CA1") (lit "Спасибо, не надо")) 0
           emptyWorld).
  right. right. vm_compute. reflexivity.
Defined.

End EndToEnd.
